(** * Graph/ExtendPath.h: path extension over a bidirectional graph

    A shallow embedding of the bounded depth-first probe [lookAhead], the
    neighbour classifiers [getSuccessor], [getPredecessor] and
    [getSingleVertexExtension], and the extension loop [extendPath],
    followed by the properties of the specification that concern them. *)

From Equations Require Import Equations.
From stdpp Require Import base decidable countable gmap sets list.
From stdpp Require Import strings.

Local Open Scope N_scope.

(** ** Machine integers

    [unsigned] is a 32-bit integer: a value in [0, 2^32) whose increment
    wraps around.  Container sizes ([size_t]) are list lengths; the source
    performs no arithmetic on them but comparison. *)

Definition UINT_MODULUS : N := 2 ^ 32.

Definition uint_incr (x : N) : N := (x + 1) mod UINT_MODULUS.

Definition UINT_MAX : N := UINT_MODULUS - 1.

(** ** Result codes *)

Inductive PathExtensionResult : Set :=
| DEAD_END
| BRANCHING_POINT
| CYCLE
| LENGTH_LIMIT
| EXTENDED_TO_DEAD_END
| EXTENDED_TO_BRANCHING_POINT
| EXTENDED_TO_CYCLE
| EXTENDED_TO_LENGTH_LIMIT.

Definition pathExtended (result : PathExtensionResult) : bool :=
  match result with
  | DEAD_END | BRANCHING_POINT | CYCLE | LENGTH_LIMIT => false
  | _ => true
  end.

(** [assert(false)] in the default case is not reachable: the
    enumeration is closed. *)
Definition pathExtensionResultStr (result : PathExtensionResult) : string :=
  match result with
  | DEAD_END => "DEAD_END"
  | BRANCHING_POINT => "BRANCHING_POINT"
  | CYCLE => "CYCLE"
  | LENGTH_LIMIT => "LENGTH_LIMIT"
  | EXTENDED_TO_DEAD_END => "EXTENDED_TO_DEAD_END"
  | EXTENDED_TO_BRANCHING_POINT => "EXTENDED_TO_BRANCHING_POINT"
  | EXTENDED_TO_CYCLE => "EXTENDED_TO_CYCLE"
  | EXTENDED_TO_LENGTH_LIMIT => "EXTENDED_TO_LENGTH_LIMIT"
  end.

Inductive SingleExtensionResult : Set :=
| SE_DEAD_END
| SE_BRANCHING_POINT
| SE_EXTENDED.

Global Instance SingleExtensionResult_eq_dec : EqDecision SingleExtensionResult.
Proof. solve_decision. Defined.

Global Instance PathExtensionResult_eq_dec : EqDecision PathExtensionResult.
Proof. solve_decision. Defined.

(** Modelled from the spec: the [Direction] enumeration ([FORWARD] or
    [REVERSE]) is declared outside ExtendPath.h; it selects whether
    out-edges or in-edges are traversed. *)
Inductive Direction : Set :=
| FORWARD
| REVERSE.

Section Model.

(** Vertex descriptors are opaque: equality and hashing only. *)
Context {V : Type} `{Countable V}.

(** ** The graph capability

    An edge is the pair of its endpoints.  [out_edges g u] and
    [in_edges g u] list the edges leaving and entering [u] in the order
    in which the graph's iterators enumerate them. *)

Definition Edge : Type := V * V.

Definition source (e : Edge) : V := fst e.
Definition target (e : Edge) : V := snd e.

Record Graph : Type := {
  out_edges : V → list Edge;
  in_edges : V → list Edge
}.

(** ** Reachability probe *)

(** The loop over the neighbours of a vertex inside [lookAhead]: [probe]
    is the recursive call at the next depth.  The visited set is shared
    by all the iterations. *)
Fixpoint lookAhead_edges (probe : V → gset V → option (bool * gset V))
    (ends : list V) (visited : gset V) : option (bool * gset V) :=
  match ends with
  | [] => Some (false, visited)
  | v :: ends' =>
    if decide (v ∈ visited) then lookAhead_edges probe ends' visited
    else
      match probe v visited with
      | None => None
      | Some (true, visited') => Some (true, visited')
      | Some (false, visited') => lookAhead_edges probe ends' visited'
      end
  end.

(** The recursive overload of [lookAhead], which threads the set of
    vertices the search has visited.  The recursion of the source ends
    when [depth] meets [depthLimit]; [fuel] bounds the number of nested
    calls, and [None] means that it ran out, which
    [depthLimit - depth + 1] calls never do
    (see [lookAhead_visited_fuel]). *)
Fixpoint lookAhead_visited (fuel : nat) (u : V) (dir : Direction)
    (depth depthLimit : N) (visited : gset V) (g : Graph)
    : option (bool * gset V) :=
  match fuel with
  | O => None
  | S fuel' =>
    let visited := {[u]} ∪ visited in
    if depth =? depthLimit then Some (true, visited)
    else
      let probe v visited :=
        lookAhead_visited fuel' v dir (uint_incr depth) depthLimit visited g in
      match dir with
      | FORWARD => lookAhead_edges probe (target <$> out_edges g u) visited
      | REVERSE => lookAhead_edges probe (source <$> in_edges g u) visited
      end
  end.

(** The four-argument overload: a fresh visited set and depth 0.  The
    search nests at most [depth + 1] calls, so that [lookAhead_run] is
    never [None] on an unsigned [depth] (see [lookAhead_run_is_Some]) and
    the last case of [lookAhead] is not taken. *)
Definition lookAhead_run (start : V) (dir : Direction) (depth : N)
    (g : Graph) : option (bool * gset V) :=
  lookAhead_visited (S (N.to_nat depth)) start dir 0 depth ∅ g.

Definition lookAhead (start : V) (dir : Direction) (depth : N) (g : Graph)
    : bool :=
  match lookAhead_run start dir depth g with
  | Some (b, _) => b
  | None => false
  end.

(** ** Branch classification *)

(** [*p = x] behind [if (p != NULL)]: [None] is the null pointer and
    [Some y] a pointer to a cell that holds [y]. *)
Definition store (p : option V) (x : V) : option V :=
  match p with
  | None => None
  | Some _ => Some x
  end.

(** What follows the loop of [getSuccessor] and [getPredecessor]. *)
Definition branch_verdict (trueBranches : N) : SingleExtensionResult :=
  if trueBranches =? 0 then SE_DEAD_END
  else if trueBranches =? 1 then SE_EXTENDED
  else SE_BRANCHING_POINT.

(** The loop of [getSuccessor] over the out-edges after the first. *)
Fixpoint getSuccessor_loop (g : Graph) (trimLen : N) (edges : list Edge)
    (trueBranches : N) (successor : option V)
    : SingleExtensionResult * option V :=
  match edges with
  | [] => (branch_verdict trueBranches, successor)
  | e :: edges' =>
    let neighbour := target e in
    if lookAhead neighbour FORWARD trimLen g then
      let trueBranches := uint_incr trueBranches in
      if 2 <=? trueBranches then (SE_BRANCHING_POINT, successor)
      else getSuccessor_loop g trimLen edges' trueBranches
             (store successor neighbour)
    else getSuccessor_loop g trimLen edges' trueBranches successor
  end.

Definition getSuccessor (v : V) (g : Graph) (trimLen : N)
    (successor : option V) : SingleExtensionResult * option V :=
  match out_edges g v with
  | [] => (SE_DEAD_END, successor)
  | e1 :: edges =>
    let neighbour1 := target e1 in
    match edges with
    | [] => (SE_EXTENDED, store successor neighbour1)
    | _ :: _ =>
      let trueBranches :=
        if lookAhead neighbour1 FORWARD trimLen g then uint_incr 0 else 0 in
      getSuccessor_loop g trimLen edges trueBranches successor
    end
  end.

(** The loop of [getPredecessor] over the in-edges after the first. *)
Fixpoint getPredecessor_loop (g : Graph) (trimLen : N) (edges : list Edge)
    (trueBranches : N) (predecessor : option V)
    : SingleExtensionResult * option V :=
  match edges with
  | [] => (branch_verdict trueBranches, predecessor)
  | e :: edges' =>
    let neighbour := source e in
    if lookAhead neighbour REVERSE trimLen g then
      let trueBranches := uint_incr trueBranches in
      if 2 <=? trueBranches then (SE_BRANCHING_POINT, predecessor)
      else getPredecessor_loop g trimLen edges' trueBranches
             (store predecessor neighbour)
    else getPredecessor_loop g trimLen edges' trueBranches predecessor
  end.

Definition getPredecessor (v : V) (g : Graph) (trimLen : N)
    (predecessor : option V) : SingleExtensionResult * option V :=
  match in_edges g v with
  | [] => (SE_DEAD_END, predecessor)
  | e1 :: edges =>
    let neighbour1 := source e1 in
    match edges with
    | [] => (SE_EXTENDED, store predecessor neighbour1)
    | _ :: _ =>
      let trueBranches :=
        if lookAhead neighbour1 REVERSE trimLen g then uint_incr 0 else 0 in
      getPredecessor_loop g trimLen edges trueBranches predecessor
    end
  end.

(** [vNext] is a reference: the call starts from the value the caller's
    variable holds and returns the value it holds afterwards. *)
Definition getSingleVertexExtension (v : V) (dir : Direction) (g : Graph)
    (trimLen : N) (vNext : V) : SingleExtensionResult * V :=
  let result :=
    match dir with
    | FORWARD => fst (getPredecessor v g trimLen None)
    | REVERSE => fst (getSuccessor v g trimLen None)
    end in
  if decide (result = SE_BRANCHING_POINT) then (SE_BRANCHING_POINT, vNext)
  else
    let '(result, cell) :=
      match dir with
      | FORWARD => getSuccessor v g trimLen (Some vNext)
      | REVERSE => getPredecessor v g trimLen (Some vNext)
      end in
    (result, default vNext cell).

(** ** Path extension *)

(** Modelled from the spec: [Path] (Graph/Path.h) is an ordered
    double-ended sequence of vertex descriptors with append and prepend,
    access to both ends and a size query.  It is a list here: [head] and
    [last] are [front()] and [back()], which have no defined value on an
    empty path. *)
Definition Path : Type := list V.

Definition push_back (path : Path) (v : V) : Path := path ++ [v].
Definition push_front (path : Path) (v : V) : Path := v :: path.
Definition pop_back (path : Path) : Path := removelast path.
Definition pop_front (path : Path) : Path := tail path.

(** The end of the path that an extension in direction [dir] works on. *)
Definition frontier (dir : Direction) (path : Path) : option V :=
  match dir with
  | FORWARD => last path
  | REVERSE => head path
  end.

(** The value of a declared and not assigned vertex descriptor
    ([V vNext;] in [extendPathBySingleVertex]). *)
Variable V_default : V.

(** Modelled from the spec: [NO_LIMIT] is the sentinel of [maxLen] that
    means unbounded; its declaration is outside ExtendPath.h. *)
Variable NO_LIMIT : N.

Definition extendPathBySingleVertex (path : Path) (dir : Direction)
    (g : Graph) (trimLen : N) : option (SingleExtensionResult * Path) :=
  v ← frontier dir path;
  let vNext := V_default in
  let '(result, vNext) := getSingleVertexExtension v dir g trimLen vNext in
  if decide (result = SE_EXTENDED) then
    match dir with
    | FORWARD => Some (result, push_back path vNext)
    | REVERSE => Some (result, push_front path vNext)
    end
  else Some (result, path).

(** The variables that the loop of [extendPath] updates. *)
Record ExtendState : Type := {
  es_path : Path;
  es_visited : gset V;
  es_result : SingleExtensionResult;
  es_detectedCycle : bool
}.

(** The state in which [extendPath] enters its loop:
    [result = SE_EXTENDED] and [detectedCycle = false]. *)
Definition loop_entry (path : Path) (visited : gset V) : ExtendState :=
  {| es_path := path; es_visited := visited;
     es_result := SE_EXTENDED; es_detectedCycle := false |}.

Definition loop_cond (maxLen : N) (s : ExtendState) : bool :=
  bool_decide (es_result s = SE_EXTENDED)
  && negb (es_detectedCycle s)
  && (N.of_nat (length (es_path s)) <? maxLen).

(** One iteration of the loop of [extendPath].  [visited.insert] reports
    in [inserted.second] whether the vertex was new. *)
Definition loop_body (dir : Direction) (g : Graph) (trimLen : N)
    (s : ExtendState) : option ExtendState :=
  '(result, path) ← extendPathBySingleVertex (es_path s) dir g trimLen;
  if decide (result = SE_EXTENDED) then
    x ← frontier dir path;
    let inserted := bool_decide (x ∉ es_visited s) in
    Some {| es_path := path;
            es_visited := {[x]} ∪ es_visited s;
            es_result := result;
            es_detectedCycle :=
              if inserted then es_detectedCycle s else true |}
  else
    Some {| es_path := path;
            es_visited := es_visited s;
            es_result := result;
            es_detectedCycle := es_detectedCycle s |}.

(** The number of iterations the loop can still make. *)
Definition loop_measure (maxLen : N) (s : ExtendState) : nat :=
  if loop_cond maxLen s
  then S (N.to_nat maxLen - length (es_path s))
  else O.

(** The loop of [extendPath]: while the condition holds, run the body.
    [None] is an iteration without defined behaviour. *)
Equations? extendPath_loop (dir : Direction) (g : Graph) (trimLen maxLen : N)
    (s : ExtendState) : option ExtendState
    by wf (loop_measure maxLen s) lt :=
  extendPath_loop dir g trimLen maxLen s
    with Logic.inspect (loop_cond maxLen s) := {
    | exist _ false _ => Some s;
    | exist _ true Hcond
        with Logic.inspect (loop_body dir g trimLen s) := {
      | exist _ None _ => None;
      | exist _ (Some s') Hbody => extendPath_loop dir g trimLen maxLen s' } }.
Proof.
  clear extendPath_loop.
  unfold loop_measure. rewrite Hcond.
  destruct (loop_cond maxLen s') eqn:Hcond'; [|lia].
  apply Nat.succ_lt_mono.
  unfold loop_cond in Hcond, Hcond'.
  apply andb_prop in Hcond as [_ Hlt%N.ltb_lt].
  apply andb_prop in Hcond'
    as [[Hres%bool_decide_eq_true _]%andb_prop Hlt'%N.ltb_lt].
  cut (length (es_path s') = S (length (es_path s))); [lia|].
  unfold loop_body, extendPathBySingleVertex in Hbody.
  destruct (frontier dir (es_path s)) as [v|]; simpl in Hbody;
    [|discriminate Hbody].
  destruct (getSingleVertexExtension v dir g trimLen V_default) as [r w].
  destruct (decide (r = SE_EXTENDED)) as [->|Hne].
  - destruct dir; simpl in Hbody.
    + destruct (last (push_back (es_path s) w)); simpl in Hbody;
        [|discriminate Hbody].
      injection Hbody as <-. simpl.
      unfold push_back. rewrite length_app. simpl. lia.
    + injection Hbody as <-. reflexivity.
  - simpl in Hbody. destruct (decide (r = SE_EXTENDED)); [contradiction|].
    injection Hbody as <-. simpl in Hres. contradiction.
Qed.

(** [assert(cond)]: the call aborts when [cond] is false. *)
Definition assert {A : Type} (cond : Prop) `{Decision cond}
    (k : option A) : option A :=
  if decide cond then k else None.

(** The core overload of [extendPath].  The result is the return code
    with the path and the visited set as the call leaves them; [None] is
    a failed assertion. *)
Definition extendPath (path : Path) (dir : Direction) (g : Graph)
    (visited : gset V) (trimLen maxLen : N)
    : option (PathExtensionResult * Path * gset V) :=
  assert (0 < length path)%nat (
    let origPathLen := length path in
    if bool_decide (N.of_nat (length path) ≠ NO_LIMIT)
       && (maxLen <=? N.of_nat (length path))
    then Some (LENGTH_LIMIT, path, visited)
    else
      s ← extendPath_loop dir g trimLen maxLen (loop_entry path visited);
      let result := es_result s in
      let detectedCycle := es_detectedCycle s in
      let visited := es_visited s in
      let path :=
        if detectedCycle then
          match dir with
          | FORWARD => pop_back (es_path s)
          | REVERSE => pop_front (es_path s)
          end
        else es_path s in
      if decide (origPathLen < length path)%nat then
        if detectedCycle then Some (EXTENDED_TO_CYCLE, path, visited)
        else if decide (result = SE_DEAD_END)
        then Some (EXTENDED_TO_DEAD_END, path, visited)
        else if decide (result = SE_BRANCHING_POINT)
        then Some (EXTENDED_TO_BRANCHING_POINT, path, visited)
        else
          assert (result = SE_EXTENDED ∧ N.of_nat (length path) = maxLen)
            (Some (EXTENDED_TO_LENGTH_LIMIT, path, visited))
      else
        assert (length path = origPathLen) (
          if detectedCycle then Some (CYCLE, path, visited)
          else if decide (result = SE_DEAD_END)
          then Some (DEAD_END, path, visited)
          else if decide (result = SE_BRANCHING_POINT)
          then Some (BRANCHING_POINT, path, visited)
          else
            assert (maxLen ≤ N.of_nat origPathLen)
              (Some (LENGTH_LIMIT, path, visited)))).

(** The overload without [visited]: the set is local and seeded with the
    vertices of the path. *)
Definition extendPath_seeded (path : Path) (dir : Direction) (g : Graph)
    (trimLen maxLen : N) : option (PathExtensionResult * Path) :=
  let visited : gset V := list_to_set path in
  '(result, path, _) ← extendPath path dir g visited trimLen maxLen;
  Some (result, path).

(** ** Notions used in the statements *)

(** The outcome [r'] of a search simulates the outcome [r] of another
    one: both searches return, and either the first has succeeded or both
    have failed with the same visited set. *)
Definition probe_sim (r' r : option (bool * gset V)) : Prop :=
  ∃ b' vis' b vis,
    r' = Some (b', vis') ∧ r = Some (b, vis) ∧
    (b' = true ∨ (b' = false ∧ b = false ∧ vis' = vis)).

(** Two graphs with the same in-edges (out-edges) at every vertex. *)
Definition same_in_edges (g g' : Graph) : Prop :=
  ∀ u, in_edges g u = in_edges g' u.

Definition same_out_edges (g g' : Graph) : Prop :=
  ∀ u, out_edges g u = out_edges g' u.

(** The graphs [g] and [g'] have the same edges in direction [dir]. *)
Definition same_edges (dir : Direction) (g g' : Graph) : Prop :=
  match dir with
  | FORWARD => same_out_edges g g'
  | REVERSE => same_in_edges g g'
  end.

Definition opposite (dir : Direction) : Direction :=
  match dir with
  | FORWARD => REVERSE
  | REVERSE => FORWARD
  end.

(** The first step of [getSingleVertexExtension]: the side against the
    direction of extension, classified with a null out-parameter. *)
Definition classify_upstream (v : V) (dir : Direction) (g : Graph)
    (trimLen : N) : SingleExtensionResult :=
  match dir with
  | FORWARD => fst (getPredecessor v g trimLen None)
  | REVERSE => fst (getSuccessor v g trimLen None)
  end.

(** Its second step: the side in the direction of extension, classified
    with a pointer to [vNext]. *)
Definition classify_downstream (v : V) (dir : Direction) (g : Graph)
    (trimLen : N) (vNext : V) : SingleExtensionResult * option V :=
  match dir with
  | FORWARD => getSuccessor v g trimLen (Some vNext)
  | REVERSE => getPredecessor v g trimLen (Some vNext)
  end.

(** The path after [push_back] or [push_front], by direction. *)
Definition push (dir : Direction) (path : Path) (v : V) : Path :=
  match dir with
  | FORWARD => push_back path v
  | REVERSE => push_front path v
  end.

Definition pop (dir : Direction) (path : Path) : Path :=
  match dir with
  | FORWARD => pop_back path
  | REVERSE => pop_front path
  end.

(** The invariant of the loop of [extendPath] started on [path0] with
    [visited0]: the path is not empty; it is no shorter than [path0], and
    longer when the vertex just added closed a cycle; a grown path is
    within [maxLen]; if [visited0] covers [path0], the visited set covers
    the path, and a path that started without duplicates has none once a
    repeated last addition is taken back. *)
Record loop_inv (path0 : Path) (visited0 : gset V) (dir : Direction)
    (maxLen : N) (s : ExtendState) : Prop := {
  inv_nonempty : es_path s ≠ [];
  inv_length :
    (length path0 + (if es_detectedCycle s then 1 else 0)
     ≤ length (es_path s))%nat;
  inv_limit :
    es_path s = path0 ∨ N.of_nat (length (es_path s)) ≤ maxLen;
  inv_visited :
    (∀ x, x ∈ path0 → x ∈ visited0) →
    ∀ x, x ∈ es_path s → x ∈ es_visited s;
  inv_nodup :
    (∀ x, x ∈ path0 → x ∈ visited0) → NoDup path0 →
    NoDup (if es_detectedCycle s then pop dir (es_path s) else es_path s)
}.

(** ** The enumeration of true branches *)

(** The loops of [trueBranches]: each neighbour that passes the probe is
    appended to [branchRoots]. *)
Fixpoint trueBranches_out (g : Graph) (trimLen : N) (edges : list Edge)
    (branchRoots : list V) : list V :=
  match edges with
  | [] => branchRoots
  | e :: edges' =>
    let v := target e in
    if lookAhead v FORWARD trimLen g
    then trueBranches_out g trimLen edges' (branchRoots ++ [v])
    else trueBranches_out g trimLen edges' branchRoots
  end.

Fixpoint trueBranches_in (g : Graph) (trimLen : N) (edges : list Edge)
    (branchRoots : list V) : list V :=
  match edges with
  | [] => branchRoots
  | e :: edges' =>
    let v := source e in
    if lookAhead v REVERSE trimLen g
    then trueBranches_in g trimLen edges' (branchRoots ++ [v])
    else trueBranches_in g trimLen edges' branchRoots
  end.

Definition trueBranches (u : V) (dir : Direction) (g : Graph) (trimLen : N)
    : list V :=
  match dir with
  | FORWARD => trueBranches_out g trimLen (out_edges g u) []
  | REVERSE => trueBranches_in g trimLen (in_edges g u) []
  end.

(** ** Further notions used in the statements *)

(** The neighbours of [u] in direction [dir], in edge order. *)
Definition neighbours (dir : Direction) (g : Graph) (u : V) : list V :=
  match dir with
  | FORWARD => target <$> out_edges g u
  | REVERSE => source <$> in_edges g u
  end.

(** Each vertex of [l] but the first is a [dir]-neighbour of the one
    before it. *)
Fixpoint is_walk (dir : Direction) (g : Graph) (l : list V) : Prop :=
  match l with
  | [] => True
  | u :: l' =>
    match l' with
    | [] => True
    | v :: _ => v ∈ neighbours dir g u ∧ is_walk dir g l'
    end
  end.

(** A walk of [n] edges from [u] that repeats no vertex. *)
Definition simple_path (dir : Direction) (g : Graph) (u : V) (n : nat)
    (l : list V) : Prop :=
  head l = Some u ∧ length l = S n ∧ is_walk dir g l ∧ NoDup l.

(** The graph with every edge turned around. *)
Definition transpose (g : Graph) : Graph :=
  {| out_edges := λ u, (λ e, (target e, source e)) <$> in_edges g u;
     in_edges := λ u, (λ e, (target e, source e)) <$> out_edges g u |}.

(** The path [path] with the vertices [added] at the end that an
    extension in direction [dir] works on. *)
Definition attach (dir : Direction) (path added : Path) : Path :=
  match dir with
  | FORWARD => path ++ added
  | REVERSE => added ++ path
  end.

(** The path read in the direction of extension. *)
Definition oriented (dir : Direction) (path : Path) : list V :=
  match dir with
  | FORWARD => path
  | REVERSE => reverse path
  end.

(** The path that [extendPath] returns from the final state of its loop,
    and the code it returns for it when it has ([grown]) or has not made
    the path longer. *)
Definition final_path (dir : Direction) (s : ExtendState) : Path :=
  if es_detectedCycle s then pop dir (es_path s) else es_path s.

Definition result_code (grown : bool) (s : ExtendState)
    : PathExtensionResult :=
  if es_detectedCycle s
  then (if grown then EXTENDED_TO_CYCLE else CYCLE)
  else
    match es_result s with
    | SE_DEAD_END => if grown then EXTENDED_TO_DEAD_END else DEAD_END
    | SE_BRANCHING_POINT =>
      if grown then EXTENDED_TO_BRANCHING_POINT else BRANCHING_POINT
    | SE_EXTENDED => if grown then EXTENDED_TO_LENGTH_LIMIT else LENGTH_LIMIT
    end.

(** The reason in a result code, without the EXTENDED_TO. *)
Definition stop_reason (r : PathExtensionResult) : PathExtensionResult :=
  match r with
  | DEAD_END | EXTENDED_TO_DEAD_END => DEAD_END
  | BRANCHING_POINT | EXTENDED_TO_BRANCHING_POINT => BRANCHING_POINT
  | CYCLE | EXTENDED_TO_CYCLE => CYCLE
  | LENGTH_LIMIT | EXTENDED_TO_LENGTH_LIMIT => LENGTH_LIMIT
  end.

(** The state and the outcome of [extendPath] with the path read from
    its other end. *)
Definition reverse_state (s : ExtendState) : ExtendState :=
  {| es_path := reverse (es_path s); es_visited := es_visited s;
     es_result := es_result s; es_detectedCycle := es_detectedCycle s |}.

Definition reverse_outcome (o : PathExtensionResult * Path * gset V)
    : PathExtensionResult * Path * gset V :=
  let '(r, path, visited) := o in (r, reverse path, visited).

(** What the loop of [extendPath] has done so far, started on [path0]
    with [visited0].  The vertices [added] that it keeps are distinct and
    were not in [visited0], and the visited set has grown by them.  After
    a cycle the path carries one more vertex [w], the candidate at the
    frontier, which was visited already.  After another stop the result
    is the classification of the frontier.  In both cases the path was
    shorter than [maxLen] when the frontier was classified. *)
Record run_inv (path0 : Path) (visited0 : gset V) (dir : Direction)
    (g : Graph) (trimLen maxLen : N) (s : ExtendState) : Prop := {
  run_trace :
    ∃ added,
      NoDup added ∧
      (∀ x, x ∈ added → x ∉ visited0) ∧
      es_visited s = list_to_set added ∪ visited0 ∧
      final_path dir s = attach dir path0 added ∧
      (es_detectedCycle s = true →
       es_result s = SE_EXTENDED ∧
       ∃ v w,
         frontier dir (final_path dir s) = Some v ∧
         getSingleVertexExtension v dir g trimLen V_default
         = (SE_EXTENDED, w) ∧
         w ∈ es_visited s ∧
         es_path s = push dir (final_path dir s) w ∧
         N.of_nat (length (final_path dir s)) < maxLen) ∧
      (es_detectedCycle s = false → es_result s ≠ SE_EXTENDED →
       ∃ v w,
         frontier dir (es_path s) = Some v ∧
         getSingleVertexExtension v dir g trimLen V_default
         = (es_result s, w) ∧
         N.of_nat (length (es_path s)) < maxLen)
}.

End Model.

Arguments Edge V : clear implicits.
Arguments Graph V : clear implicits.
Arguments Path V : clear implicits.
Arguments ExtendState V {_ _}.

(** ** Example graphs

    Vertices are natural numbers; an edge list gives both [out_edges] and
    [in_edges], each in the order of the list. *)

Definition graph_of_edges (edges : list (Edge nat)) : Graph nat :=
  {| out_edges := λ u, filter (λ e, source e = u) edges;
     in_edges := λ u, filter (λ e, target e = u) edges |}.

(** The same graph with every edge turned around. *)
Definition reverse_graph (g : Graph nat) : Graph nat :=
  {| out_edges := λ u, (λ e, (target e, source e)) <$> in_edges g u;
     in_edges := λ u, (λ e, (target e, source e)) <$> out_edges g u |}.

(** 0 → 1 → 3 with a spur 0 → 2: of the two neighbours of 0, the first
    in edge order starts a branch of one more vertex and the second is a
    dead end. *)
Definition spur_graph : Graph nat :=
  graph_of_edges [(0, 1); (0, 2); (1, 3)]%nat.

(** 1 → 0 ← 2 and 0 → 3: two paths merge in 0. *)
Definition merge_graph : Graph nat :=
  graph_of_edges [(1, 0); (2, 0); (0, 3)]%nat.

(** A single vertex with a self-loop. *)
Definition loop_graph : Graph nat :=
  graph_of_edges [(0, 0)]%nat.

(** The linear chain 0 → 1 → 2 → 3 and the cycle 0 → 1 → 2 → 0. *)
Definition chain_graph : Graph nat :=
  graph_of_edges [(0, 1); (1, 2); (2, 3)]%nat.

Definition cycle_graph : Graph nat :=
  graph_of_edges [(0, 1); (1, 2); (2, 0)]%nat.

(** 0 → 2 → 3 and the detour 0 → 1 → 2, the direct edge first in the edge
    order of 0. *)
Definition detour_graph : Graph nat :=
  graph_of_edges [(0, 2); (0, 1); (1, 2); (2, 3)]%nat.

Section Properties.

Context {V : Type} `{Countable V}.
Variable V_default : V.
Variable NO_LIMIT : N.

Implicit Types (u v w : V) (g : Graph V) (path : Path V) (visited : gset V).
Implicit Types (dir : Direction) (s : ExtendState V).

(** * Properties *)

(** ** The reachability probe *)

Lemma uint_incr_below (x bound : N) :
  x < bound → bound < UINT_MODULUS → uint_incr x = x + 1.
Proof.
  intros Hx Hb. unfold uint_incr. apply N.mod_small. lia.
Qed.

(** The neighbour loop returns once every recursive call does. *)
Lemma lookAhead_edges_is_Some probe ends visited :
  (∀ v vis, is_Some (probe v vis)) →
  is_Some (lookAhead_edges probe ends visited).
Proof.
  intros Hprobe. revert visited.
  induction ends as [|v ends IH]; intros visited; simpl; [eauto|].
  destruct (decide (v ∈ visited)); [apply IH|].
  destruct (Hprobe v visited) as [[[] vis'] ->]; [eauto|apply IH].
Qed.

(** Termination of the probe: [depthLimit - depth + 1] nested calls are
    enough, since each call is one level deeper than its caller. *)
Lemma lookAhead_visited_fuel fuel u dir depth depthLimit visited g :
  depth ≤ depthLimit → depthLimit < UINT_MODULUS →
  (N.to_nat (depthLimit - depth) < fuel)%nat →
  is_Some (lookAhead_visited fuel u dir depth depthLimit visited g).
Proof.
  revert u depth visited.
  induction fuel as [|fuel IH]; intros u depth visited Hle Hlim Hfuel; [lia|].
  simpl. destruct (N.eqb_spec depth depthLimit) as [->|Hne]; [eauto|].
  assert (Hstep : ∀ v vis, is_Some
    (lookAhead_visited fuel v dir (uint_incr depth) depthLimit vis g)).
  { intros v vis. rewrite (uint_incr_below depth depthLimit) by lia.
    apply IH; lia. }
  destruct dir; apply lookAhead_edges_is_Some; exact Hstep.
Qed.

Lemma lookAhead_run_is_Some start dir depth g :
  depth < UINT_MODULUS → is_Some (lookAhead_run start dir depth g).
Proof.
  intros Hlim. apply lookAhead_visited_fuel; lia.
Qed.

Lemma lookAhead_true_run start dir depth g :
  lookAhead start dir depth g = true ↔
  ∃ vis, lookAhead_run start dir depth g = Some (true, vis).
Proof.
  unfold lookAhead. split.
  - destruct (lookAhead_run start dir depth g) as [[[] vis]|];
      intros; [eauto|discriminate..].
  - intros [vis ->]. reflexivity.
Qed.

(** C9: the probe with depth limit zero succeeds for every vertex,
    direction and graph: [lookAhead(v, dir, 0, g)] returns true.  The
    search returns from its first call, having visited [v] alone. *)
Theorem lookAhead_depth_zero (v : V) (dir : Direction) (g : Graph V) :
  lookAhead v dir 0 g = true ∧
  lookAhead_run v dir 0 g = Some (true, {[v]}).
Proof.
  split; [reflexivity|].
  unfold lookAhead_run. simpl. rewrite union_empty_r_L. reflexivity.
Qed.

Lemma probe_sim_is_Some (r' r : option (bool * gset V)) :
  probe_sim r' r → is_Some r.
Proof. intros (? & ? & ? & ? & _ & -> & _). eauto. Qed.

Lemma probe_sim_success (vis' : gset V) r :
  is_Some r → probe_sim (Some (true, vis')) r.
Proof.
  intros [[b vis] ->]. exists true, vis', b, vis. repeat split; auto.
Qed.

(** Two runs of the neighbour loop from the same visited set, the first
    with the smaller depth limit. *)
Lemma lookAhead_edges_sim probe' probe ends visited :
  (∀ v vis, probe_sim (probe' v vis) (probe v vis)) →
  probe_sim (lookAhead_edges probe' ends visited)
            (lookAhead_edges probe ends visited).
Proof.
  intros Hsim.
  assert (Htotal : ∀ v vis, is_Some (probe v vis))
    by (intros v vis; exact (probe_sim_is_Some _ _ (Hsim v vis))).
  revert visited. induction ends as [|v ends IH]; intros visited; simpl.
  - exists false, visited, false, visited. repeat split; auto.
  - destruct (decide (v ∈ visited)); [apply IH|].
    destruct (Hsim v visited)
      as (b' & vis' & b & vis & -> & -> & [-> | (-> & -> & ->)]).
    + apply probe_sim_success. destruct b; [eauto|].
      apply lookAhead_edges_is_Some, Htotal.
    + apply IH.
Qed.

(** Until a search with limit [d'] first reaches depth [d'], it makes
    the same calls as a search with a limit [d ≥ d']. *)
Lemma lookAhead_visited_sim fuel' fuel u dir depth d' d visited g :
  depth ≤ d' → d' ≤ d → d < UINT_MODULUS →
  (N.to_nat (d' - depth) < fuel')%nat →
  (N.to_nat (d - depth) < fuel)%nat →
  probe_sim (lookAhead_visited fuel' u dir depth d' visited g)
            (lookAhead_visited fuel u dir depth d visited g).
Proof.
  revert fuel u depth visited.
  induction fuel' as [|fuel' IH];
    intros fuel u depth visited Hle Hle' Hlim Hfuel' Hfuel; [lia|].
  destruct fuel as [|fuel]; [lia|].
  cbn [lookAhead_visited].
  destruct (N.eqb_spec depth d') as [->|Hne'].
  - apply probe_sim_success.
    change (is_Some (lookAhead_visited (S fuel) u dir d' d visited g)).
    apply lookAhead_visited_fuel; lia.
  - destruct (N.eqb_spec depth d) as [->|Hne]; [lia|].
    assert (Hstep : ∀ v vis, probe_sim
      (lookAhead_visited fuel' v dir (uint_incr depth) d' vis g)
      (lookAhead_visited fuel v dir (uint_incr depth) d vis g)).
    { intros v vis. rewrite (uint_incr_below depth d) by lia.
      apply IH; lia. }
    destruct dir; apply lookAhead_edges_sim; exact Hstep.
Qed.

(** C5: monotonicity of the reachability probe.  For depth limits
    [d' ≤ d] (values of type unsigned), if [lookAhead(v, dir, d, g)]
    returns true then [lookAhead(v, dir, d', g)] returns true. *)
Theorem lookAhead_monotone (v : V) (dir : Direction) (g : Graph V) (d d' : N) :
  d < UINT_MODULUS → d' ≤ d →
  lookAhead v dir d g = true → lookAhead v dir d' g = true.
Proof.
  intros Hlim Hle [vis Hrun]%lookAhead_true_run.
  apply lookAhead_true_run.
  destruct (lookAhead_visited_sim (S (N.to_nat d')) (S (N.to_nat d))
              v dir 0 d' d ∅ g)
    as (b' & vis' & b & vis0 & Hrun' & Hrun0 & Hcase); try lia.
  unfold lookAhead_run in *. rewrite Hrun in Hrun0.
  injection Hrun0 as <- <-.
  destruct Hcase as [-> | (_ & [=] & _)]. eauto.
Qed.

(** ** The branch classifier *)

(** C6: a vertex with exactly one raw out-edge (in-edge) is classified
    SE_EXTENDED by [getSuccessor] ([getPredecessor]) with that sole
    neighbour as the candidate, whatever [trimLen] is and whatever the
    reach of the neighbour: no probe is consulted. *)
Theorem single_edge_always_extended (v : V) (g : Graph V) (trimLen : N) :
  (∀ e, out_edges g v = [e] →
     getSuccessor v g trimLen None = (SE_EXTENDED, None) ∧
     ∀ old, getSuccessor v g trimLen (Some old)
            = (SE_EXTENDED, Some (target e))) ∧
  (∀ e, in_edges g v = [e] →
     getPredecessor v g trimLen None = (SE_EXTENDED, None) ∧
     ∀ old, getPredecessor v g trimLen (Some old)
            = (SE_EXTENDED, Some (source e))).
Proof.
  split; intros e Hedges.
  - unfold getSuccessor. rewrite Hedges. split; reflexivity.
  - unfold getPredecessor. rewrite Hedges. split; reflexivity.
Qed.

(** Once no remaining neighbour passes the probe, the loops only count:
    the out-parameter is not written. *)
Lemma getSuccessor_loop_no_branch g trimLen edges trueBranches successor :
  (∀ e, e ∈ edges → lookAhead (target e) FORWARD trimLen g = false) →
  getSuccessor_loop g trimLen edges trueBranches successor
  = (branch_verdict trueBranches, successor).
Proof.
  induction edges as [|e edges IH]; intros Hnone; simpl; [reflexivity|].
  rewrite (Hnone e) by apply list_elem_of_here.
  apply IH. intros e' He'. apply Hnone, list_elem_of_further, He'.
Qed.

Lemma getPredecessor_loop_no_branch g trimLen edges trueBranches predecessor :
  (∀ e, e ∈ edges → lookAhead (source e) REVERSE trimLen g = false) →
  getPredecessor_loop g trimLen edges trueBranches predecessor
  = (branch_verdict trueBranches, predecessor).
Proof.
  induction edges as [|e edges IH]; intros Hnone; simpl; [reflexivity|].
  rewrite (Hnone e) by apply list_elem_of_here.
  apply IH. intros e' He'. apply Hnone, list_elem_of_further, He'.
Qed.

(** With two or more raw edges of which only the first leads to a true
    branch, the classifiers answer SE_EXTENDED and return the cell of
    the out-parameter as they found it: the first neighbour is counted
    and never stored. *)
Lemma getSuccessor_first_branch_only v g trimLen e1 e2 edges successor :
  out_edges g v = e1 :: e2 :: edges →
  lookAhead (target e1) FORWARD trimLen g = true →
  (∀ e, e ∈ e2 :: edges → lookAhead (target e) FORWARD trimLen g = false) →
  getSuccessor v g trimLen successor = (SE_EXTENDED, successor).
Proof.
  intros Hedges Hfirst Hrest. unfold getSuccessor.
  rewrite Hedges, Hfirst.
  rewrite getSuccessor_loop_no_branch by exact Hrest. reflexivity.
Qed.

Lemma getPredecessor_first_branch_only v g trimLen e1 e2 edges predecessor :
  in_edges g v = e1 :: e2 :: edges →
  lookAhead (source e1) REVERSE trimLen g = true →
  (∀ e, e ∈ e2 :: edges → lookAhead (source e) REVERSE trimLen g = false) →
  getPredecessor v g trimLen predecessor = (SE_EXTENDED, predecessor).
Proof.
  intros Hedges Hfirst Hrest. unfold getPredecessor.
  rewrite Hedges, Hfirst.
  rewrite getPredecessor_loop_no_branch by exact Hrest. reflexivity.
Qed.

(** When the only true branch starts at a later edge, its neighbour is
    stored. *)
Lemma getSuccessor_later_branch_only v g trimLen e1 before e after successor :
  out_edges g v = e1 :: before ++ e :: after →
  lookAhead (target e1) FORWARD trimLen g = false →
  (∀ e', e' ∈ before → lookAhead (target e') FORWARD trimLen g = false) →
  lookAhead (target e) FORWARD trimLen g = true →
  (∀ e', e' ∈ after → lookAhead (target e') FORWARD trimLen g = false) →
  getSuccessor v g trimLen successor = (SE_EXTENDED, store successor (target e)).
Proof.
  intros Hedges Hfirst Hbefore He Hafter. unfold getSuccessor.
  rewrite Hedges, Hfirst.
  assert (Hloop : getSuccessor_loop g trimLen (before ++ e :: after) 0 successor
                  = (SE_EXTENDED, store successor (target e))).
  { clear Hedges. induction before as [|b before IH]; simpl.
    - rewrite He. change (2 <=? uint_incr 0) with false. cbv iota.
      rewrite getSuccessor_loop_no_branch by exact Hafter. reflexivity.
    - rewrite (Hbefore b) by apply list_elem_of_here.
      apply IH. intros e' He'. apply Hbefore, list_elem_of_further, He'. }
  destruct before; exact Hloop.
Qed.

(** A non-null out-parameter stays non-null. *)
Lemma getSuccessor_loop_cell g trimLen edges trueBranches x :
  is_Some (getSuccessor_loop g trimLen edges trueBranches (Some x)).2.
Proof.
  revert trueBranches x.
  induction edges as [|e edges IH]; intros tb x; simpl; [eauto|].
  destruct (lookAhead _ _ _ _); [|apply IH].
  destruct (2 <=? uint_incr tb); simpl; [eauto|apply IH].
Qed.

Lemma getPredecessor_loop_cell g trimLen edges trueBranches x :
  is_Some (getPredecessor_loop g trimLen edges trueBranches (Some x)).2.
Proof.
  revert trueBranches x.
  induction edges as [|e edges IH]; intros tb x; simpl; [eauto|].
  destruct (lookAhead _ _ _ _); [|apply IH].
  destruct (2 <=? uint_incr tb); simpl; [eauto|apply IH].
Qed.

Lemma classify_downstream_cell v dir g trimLen vNext :
  is_Some (classify_downstream v dir g trimLen vNext).2.
Proof.
  destruct dir; simpl.
  - unfold getSuccessor. destruct (out_edges g v) as [|e1 [|e2 edges]];
      [simpl; eauto..|apply getSuccessor_loop_cell].
  - unfold getPredecessor. destruct (in_edges g v) as [|e1 [|e2 edges]];
      [simpl; eauto..|apply getPredecessor_loop_cell].
Qed.

(** The probe in direction [dir] reads the edges of that direction only. *)
Lemma lookAhead_edges_ext probe probe' ends visited :
  (∀ v vis, probe v vis = probe' v vis) →
  lookAhead_edges probe ends visited = lookAhead_edges probe' ends visited.
Proof.
  intros Hext. revert visited.
  induction ends as [|v ends IH]; intros visited; simpl; [reflexivity|].
  rewrite Hext. destruct (decide (v ∈ visited)); [apply IH|].
  destruct (probe' v visited) as [[[] vis]|]; auto.
Qed.

Lemma lookAhead_visited_ext fuel u dir depth depthLimit visited g g' :
  same_edges dir g g' →
  lookAhead_visited fuel u dir depth depthLimit visited g
  = lookAhead_visited fuel u dir depth depthLimit visited g'.
Proof.
  intros Hsame. revert u depth visited.
  induction fuel as [|fuel IH]; intros u depth visited; simpl; [reflexivity|].
  destruct (depth =? depthLimit); [reflexivity|].
  destruct dir; simpl in Hsame; rewrite (Hsame u);
    apply lookAhead_edges_ext; intros; apply IH.
Qed.

Lemma lookAhead_ext start dir depth g g' :
  same_edges dir g g' → lookAhead start dir depth g = lookAhead start dir depth g'.
Proof.
  intros Hsame. unfold lookAhead, lookAhead_run.
  rewrite (lookAhead_visited_ext _ _ _ _ _ _ g g' Hsame). reflexivity.
Qed.

Lemma classify_upstream_ext v dir g g' trimLen :
  same_edges (opposite dir) g g' →
  classify_upstream v dir g trimLen = classify_upstream v dir g' trimLen.
Proof.
  intros Hsame.
  assert (Hprobe : ∀ w, lookAhead w (opposite dir) trimLen g
                        = lookAhead w (opposite dir) trimLen g')
    by (intros; apply lookAhead_ext, Hsame).
  destruct dir; simpl in *; f_equal.
  - unfold getPredecessor. rewrite <- (Hsame v).
    destruct (in_edges g v) as [|e1 [|e2 edges]]; try reflexivity.
    rewrite Hprobe. generalize (e2 :: edges).
    generalize (if lookAhead (source e1) REVERSE trimLen g'
                then uint_incr 0 else 0).
    intros tb l. revert tb. generalize (@None V).
    induction l as [|e l IH]; intros cell tb; simpl; [reflexivity|].
    rewrite Hprobe. destruct (lookAhead _ _ _ g'); [|apply IH].
    destruct (2 <=? uint_incr tb); [reflexivity|apply IH].
  - unfold getSuccessor. rewrite <- (Hsame v).
    destruct (out_edges g v) as [|e1 [|e2 edges]]; try reflexivity.
    rewrite Hprobe. generalize (e2 :: edges).
    generalize (if lookAhead (target e1) FORWARD trimLen g'
                then uint_incr 0 else 0).
    intros tb l. revert tb. generalize (@None V).
    induction l as [|e l IH]; intros cell tb; simpl; [reflexivity|].
    rewrite Hprobe. destruct (lookAhead _ _ _ g'); [|apply IH].
    destruct (2 <=? uint_incr tb); [reflexivity|apply IH].
Qed.

(** C2: [getSingleVertexExtension] first classifies the side opposite
    [dir].  If that is a branching point, it returns SE_BRANCHING_POINT,
    leaves [vNext] as it was and does not look at the side matching
    [dir]: the answer is the same in every graph that has the same edges
    on the opposite side.  Otherwise it returns the classification and
    the candidate of the side matching [dir]. *)
Theorem getSingleVertexExtension_precedence (v : V) (dir : Direction)
    (g : Graph V) (trimLen : N) (vNext : V) :
  (classify_upstream v dir g trimLen = SE_BRANCHING_POINT →
     ∀ g', same_edges (opposite dir) g g' →
       getSingleVertexExtension v dir g' trimLen vNext
       = (SE_BRANCHING_POINT, vNext)) ∧
  (classify_upstream v dir g trimLen ≠ SE_BRANCHING_POINT →
     ∃ result candidate,
       classify_downstream v dir g trimLen vNext = (result, Some candidate) ∧
       getSingleVertexExtension v dir g trimLen vNext = (result, candidate)).
Proof.
  split.
  - intros Hup g' Hsame.
    rewrite (classify_upstream_ext v dir g g' trimLen Hsame) in Hup.
    unfold getSingleVertexExtension.
    change (match dir with
            | FORWARD => (getPredecessor v g' trimLen None).1
            | REVERSE => (getSuccessor v g' trimLen None).1
            end) with (classify_upstream v dir g' trimLen).
    rewrite Hup. reflexivity.
  - intros Hup.
    destruct (classify_downstream_cell v dir g trimLen vNext) as [w Hw].
    destruct (classify_downstream v dir g trimLen vNext) as [r cell] eqn:Hdown.
    simpl in Hw. subst cell. exists r, w. split; [reflexivity|].
    unfold getSingleVertexExtension.
    change (match dir with
            | FORWARD => (getPredecessor v g trimLen None).1
            | REVERSE => (getSuccessor v g trimLen None).1
            end) with (classify_upstream v dir g trimLen).
    destruct (decide (classify_upstream v dir g trimLen = SE_BRANCHING_POINT));
      [contradiction|].
    change (match dir with
            | FORWARD => getSuccessor v g trimLen (Some vNext)
            | REVERSE => getPredecessor v g trimLen (Some vNext)
            end) with (classify_downstream v dir g trimLen vNext).
    rewrite Hdown. reflexivity.
Qed.

(** ** The path extender *)

(** The loop of [extendPath], one iteration at a time. *)
Lemma extendPath_loop_step dir g trimLen maxLen s :
  extendPath_loop V_default dir g trimLen maxLen s =
  if loop_cond maxLen s then
    s' ← loop_body V_default dir g trimLen s;
    extendPath_loop V_default dir g trimLen maxLen s'
  else Some s.
Proof.
  funelim (extendPath_loop V_default dir g trimLen maxLen s);
    match goal with Hc : loop_cond _ _ = _ |- _ => rewrite Hc end;
    try match goal with Hb : loop_body _ _ _ _ _ = _ |- _ => rewrite Hb end;
    reflexivity.
Qed.

(** The invariant rule of the loop: the loop returns, in a state where
    its condition is false, and every property that an iteration
    preserves holds there. *)
Lemma extendPath_loop_invariant (I : ExtendState V → Prop) dir g trimLen maxLen :
  (∀ s, I s → loop_cond maxLen s = true →
        ∃ s', loop_body V_default dir g trimLen s = Some s' ∧ I s') →
  ∀ s, I s →
    ∃ s', extendPath_loop V_default dir g trimLen maxLen s = Some s' ∧
          I s' ∧ loop_cond maxLen s' = false.
Proof.
  intros Hstep s.
  funelim (extendPath_loop V_default dir g trimLen maxLen s); intros HI.
  - eauto.
  - destruct (Hstep s HI Hcond) as (s'' & Hb & HI').
    rewrite Hbody in Hb. injection Hb as <-.
    match goal with IH : ∀ I : _ → Prop, _ |- _ => exact (IH I Hstep HI') end.
  - destruct (Hstep s HI Hcond) as (s'' & Hb & _).
    match goal with Hn : loop_body _ _ _ _ _ = None |- _ =>
      rewrite Hn in Hb; discriminate Hb end.
Qed.

Lemma frontier_push dir path w : frontier dir (push dir path w) = Some w.
Proof.
  destruct dir; simpl; [apply last_snoc|reflexivity].
Qed.

Lemma pop_push dir path w : pop dir (push dir path w) = path.
Proof.
  destruct dir; simpl; [apply removelast_last|reflexivity].
Qed.

Lemma length_push dir path w : length (push dir path w) = S (length path).
Proof.
  destruct dir; simpl; [|reflexivity].
  unfold push_back. rewrite length_app. simpl. lia.
Qed.

Lemma elem_of_push dir path w x : x ∈ push dir path w ↔ x = w ∨ x ∈ path.
Proof.
  destruct dir; simpl; unfold push_back, push_front.
  - rewrite elem_of_app, list_elem_of_singleton. tauto.
  - apply elem_of_cons.
Qed.

Lemma NoDup_push dir path w : w ∉ path → NoDup path → NoDup (push dir path w).
Proof.
  intros Hw Hnd. destruct dir; simpl; unfold push_back, push_front.
  - apply NoDup_app. repeat split; [exact Hnd| |apply NoDup_singleton].
    intros x Hx ->%list_elem_of_singleton. contradiction.
  - apply NoDup_cons. auto.
Qed.

Lemma push_pop dir path : path ≠ [] → ∃ w, path = push dir (pop dir path) w.
Proof.
  intros Hne. destruct dir; simpl.
  - destruct path as [|w path _] using rev_ind; [done|].
    exists w. unfold pop_back. rewrite removelast_last. reflexivity.
  - destruct path as [|w path]; [done|]. exists w. reflexivity.
Qed.

Lemma frontier_is_Some dir path : path ≠ [] → is_Some (frontier dir path).
Proof.
  intros Hne. destruct dir; simpl.
  - destruct path as [|v path] using rev_ind; [done|].
    rewrite last_snoc. eauto.
  - destruct path; [done|]. simpl. eauto.
Qed.

(** One iteration on a non-empty path: either the frontier has no unique
    extension and only the result changes, or the candidate [w] is added
    to the path and inserted into the visited set, and a cycle is flagged
    when it was there already. *)
Lemma loop_body_spec dir g trimLen s :
  es_path s ≠ [] →
  ∃ r w,
    (r ≠ SE_EXTENDED ∧
     loop_body V_default dir g trimLen s
     = Some {| es_path := es_path s; es_visited := es_visited s;
               es_result := r; es_detectedCycle := es_detectedCycle s |}) ∨
    (r = SE_EXTENDED ∧
     loop_body V_default dir g trimLen s
     = Some {| es_path := push dir (es_path s) w;
               es_visited := {[w]} ∪ es_visited s;
               es_result := SE_EXTENDED;
               es_detectedCycle :=
                 if bool_decide (w ∉ es_visited s)
                 then es_detectedCycle s else true |}).
Proof.
  intros Hne.
  destruct (frontier_is_Some dir (es_path s) Hne) as [v Hv].
  unfold loop_body, extendPathBySingleVertex. rewrite Hv. simpl.
  destruct (getSingleVertexExtension v dir g trimLen V_default) as [r w].
  exists r, w. destruct (decide (r = SE_EXTENDED)) as [->|Hr].
  - right. split; [reflexivity|].
    replace (match dir with
             | FORWARD => Some (SE_EXTENDED, push_back (es_path s) w)
             | REVERSE => Some (SE_EXTENDED, push_front (es_path s) w)
             end) with (Some (SE_EXTENDED, push dir (es_path s) w))
      by (destruct dir; reflexivity).
    simpl. rewrite frontier_push. reflexivity.
  - left. split; [exact Hr|]. simpl.
    destruct (decide (r = SE_EXTENDED)); [contradiction|reflexivity].
Qed.

Lemma loop_cond_true maxLen s :
  loop_cond maxLen s = true ↔
  es_result s = SE_EXTENDED ∧ es_detectedCycle s = false ∧
  N.of_nat (length (es_path s)) < maxLen.
Proof.
  unfold loop_cond.
  rewrite !andb_true_iff, bool_decide_eq_true, negb_true_iff, N.ltb_lt.
  tauto.
Qed.

Lemma loop_inv_entry path visited dir maxLen :
  path ≠ [] → loop_inv path visited dir maxLen (loop_entry path visited).
Proof.
  intros Hne. split; simpl; auto. lia.
Qed.

Lemma loop_inv_step path0 visited0 dir g trimLen maxLen s :
  loop_inv path0 visited0 dir maxLen s → loop_cond maxLen s = true →
  ∃ s', loop_body V_default dir g trimLen s = Some s' ∧
        loop_inv path0 visited0 dir maxLen s'.
Proof.
  intros [Hne Hlen Hlim Hvis Hnd] (Hres & Hcyc & Hlt)%loop_cond_true.
  rewrite Hcyc in Hlen, Hnd.
  destruct (loop_body_spec dir g trimLen s Hne)
    as (r & w & [(Hr & ->) | (-> & ->)]); eexists; (split; [reflexivity|]).
  - split; simpl; rewrite ?Hcyc; auto.
  - split; simpl; rewrite ?Hcyc.
    + destruct dir, (es_path s); discriminate.
    + rewrite length_push. destruct (bool_decide (w ∉ es_visited s)); lia.
    + right. rewrite length_push. lia.
    + intros Hcov x [->|Hx]%elem_of_push; apply elem_of_union;
        [left; apply elem_of_singleton; reflexivity|right; auto].
    + intros Hcov Hnd0. specialize (Hvis Hcov). specialize (Hnd Hcov Hnd0).
      case_bool_decide as Hw.
      * apply NoDup_push; [|exact Hnd]. intros Hin. apply Hw, Hvis, Hin.
      * rewrite pop_push. exact Hnd.
Qed.

(** The loop started on a non-empty path returns, in a state that
    satisfies the invariant and falsifies the loop condition. *)
Lemma extendPath_loop_spec path visited dir g trimLen maxLen :
  path ≠ [] →
  ∃ s, extendPath_loop V_default dir g trimLen maxLen (loop_entry path visited)
       = Some s ∧
       loop_inv path visited dir maxLen s ∧ loop_cond maxLen s = false.
Proof.
  intros Hne.
  apply (extendPath_loop_invariant (loop_inv path visited dir maxLen)).
  - intros s. apply loop_inv_step.
  - apply loop_inv_entry, Hne.
Qed.

(** What a call of the core overload on a non-empty path does: it
    returns (no assertion fails); the path has not shrunk; the code is an
    EXTENDED_TO code exactly when the path has grown; a visited set that
    covered the path still does; a path without duplicates in a covering
    visited set still has none. *)
Lemma extendPath_spec path dir g visited trimLen maxLen :
  path ≠ [] →
  ∃ r path' visited',
    extendPath V_default NO_LIMIT path dir g visited trimLen maxLen
    = Some (r, path', visited') ∧
    (length path ≤ length path')%nat ∧
    (pathExtended r = true ↔ (length path < length path')%nat) ∧
    ((∀ x, x ∈ path → x ∈ visited) → ∀ x, x ∈ path' → x ∈ visited') ∧
    ((∀ x, x ∈ path → x ∈ visited) → NoDup path → NoDup path').
Proof.
  intros Hne. unfold extendPath, assert.
  assert (0 < length path)%nat by (destruct path; [done|simpl; lia]).
  destruct (decide (0 < length path)%nat); [|contradiction].
  destruct (bool_decide (N.of_nat (length path) ≠ NO_LIMIT)
            && (maxLen <=? N.of_nat (length path))).
  { exists LENGTH_LIMIT, path, visited.
    repeat split; auto; simpl; first [lia|discriminate]. }
  destruct (extendPath_loop_spec path visited dir g trimLen maxLen Hne)
    as (s & Hloop & [Hne' Hlen Hlim Hvis Hnd] & Hcond).
  rewrite Hloop. simpl.
  fold (pop dir (es_path s)).
  set (path' := if es_detectedCycle s then pop dir (es_path s) else es_path s)
    in *.
  assert (Hpath' : (es_detectedCycle s = false ∧ path' = es_path s) ∨
                   (es_detectedCycle s = true ∧
                    ∃ w, es_path s = push dir path' w)).
  { subst path'. destruct (es_detectedCycle s); [right|left]; split; auto.
    apply push_pop, Hne'. }
  assert (Hlen' : (length path ≤ length path')%nat).
  { destruct Hpath' as [[Hc ->]|[Hc [w Hw]]]; rewrite Hc in Hlen; [lia|].
    rewrite Hw, length_push in Hlen. lia. }
  assert (Hvis' : (∀ x, x ∈ path → x ∈ visited) →
                  ∀ x, x ∈ path' → x ∈ es_visited s).
  { intros Hcov x Hx. apply (Hvis Hcov).
    destruct Hpath' as [[_ <-]|[_ [w ->]]]; [exact Hx|].
    apply elem_of_push. auto. }
  assert (Hexit : es_detectedCycle s = false → es_result s = SE_EXTENDED →
                  maxLen ≤ N.of_nat (length path')).
  { intros Hc Hr. destruct Hpath' as [[_ ->]|[Hc' _]]; [|congruence].
    destruct (N.le_gt_cases maxLen (N.of_nat (length (es_path s))))
      as [|Hlt]; [assumption|].
    assert (loop_cond maxLen s = true) by (apply loop_cond_true; auto).
    congruence. }
  assert (Hgrown : es_detectedCycle s = false →
                   (length path < length path')%nat →
                   N.of_nat (length path') ≤ maxLen).
  { intros Hc Hlt. destruct Hpath' as [[_ Heq]|[Hc' _]]; [|congruence].
    rewrite Heq in *. destruct Hlim as [Hp|]; [|assumption].
    rewrite Hp in Hlt. lia. }
  assert (Hnd' : (∀ x, x ∈ path → x ∈ visited) → NoDup path → NoDup path')
    by exact Hnd.
  clearbody path'. clear Hpath' Hlen Hlim Hvis Hnd Hcond Hloop.
  destruct (decide (length path < length path')%nat) as [Hlt|Hnlt];
    [|destruct (decide (length path' = length path)); [|lia]];
    (destruct (es_detectedCycle s);
     [|destruct (decide (es_result s = SE_DEAD_END));
       [|destruct (decide (es_result s = SE_BRANCHING_POINT));
         [|assert (Hr : es_result s = SE_EXTENDED)
             by (destruct (es_result s); congruence);
           specialize (Hexit eq_refl Hr);
           try specialize (Hgrown eq_refl Hlt);
           destruct (decide _) as [?|Hfail];
             [|exfalso; apply Hfail; first [split; [assumption|lia]|lia]]]]]);
    (eexists _, _, _; split; [reflexivity|]; split; [assumption|];
     split; [simpl; split; intros; first [reflexivity|discriminate|lia]|];
     split; assumption).
Qed.

Lemma pathExtended_true_codes (r : PathExtensionResult) :
  pathExtended r = true ↔
  r ∈ [EXTENDED_TO_DEAD_END; EXTENDED_TO_BRANCHING_POINT;
       EXTENDED_TO_CYCLE; EXTENDED_TO_LENGTH_LIMIT].
Proof.
  rewrite !elem_of_cons, elem_of_nil.
  destruct r; simpl; split; intros Hr; try discriminate Hr; try tauto;
    repeat destruct Hr as [Hr|Hr]; first [discriminate Hr|contradiction].
Qed.

Lemma pathExtended_false_codes (r : PathExtensionResult) :
  pathExtended r = false ↔
  r ∈ [DEAD_END; BRANCHING_POINT; CYCLE; LENGTH_LIMIT].
Proof.
  rewrite !elem_of_cons, elem_of_nil.
  destruct r; simpl; split; intros Hr; try discriminate Hr; try tauto;
    repeat destruct Hr as [Hr|Hr]; first [discriminate Hr|contradiction].
Qed.

(** C3: a call of [extendPath] on a non-empty path returns, and its
    code is one of the four EXTENDED_TO codes if and only if the path is
    strictly longer on return than on entry, and otherwise one of
    DEAD_END, BRANCHING_POINT, CYCLE, LENGTH_LIMIT; that is,
    [pathExtended] of the code holds exactly when the path has grown.
    The overload without [visited] returns the same code and path. *)
Theorem extendPath_extended_iff_grown (path : Path V) (dir : Direction)
    (g : Graph V) (visited : gset V) (trimLen maxLen : N) :
  path ≠ [] →
  (∃ r path' visited',
     extendPath V_default NO_LIMIT path dir g visited trimLen maxLen
     = Some (r, path', visited') ∧
     (r ∈ [EXTENDED_TO_DEAD_END; EXTENDED_TO_BRANCHING_POINT;
           EXTENDED_TO_CYCLE; EXTENDED_TO_LENGTH_LIMIT]
      ↔ (length path < length path')%nat) ∧
     (¬ (length path < length path')%nat →
      r ∈ [DEAD_END; BRANCHING_POINT; CYCLE; LENGTH_LIMIT]) ∧
     (pathExtended r = true ↔ (length path < length path')%nat)) ∧
  (∃ r path',
     extendPath_seeded V_default NO_LIMIT path dir g trimLen maxLen
     = Some (r, path') ∧
     (r ∈ [EXTENDED_TO_DEAD_END; EXTENDED_TO_BRANCHING_POINT;
           EXTENDED_TO_CYCLE; EXTENDED_TO_LENGTH_LIMIT]
      ↔ (length path < length path')%nat) ∧
     (¬ (length path < length path')%nat →
      r ∈ [DEAD_END; BRANCHING_POINT; CYCLE; LENGTH_LIMIT]) ∧
     (pathExtended r = true ↔ (length path < length path')%nat)).
Proof.
  intros Hne.
  assert (Hcodes : ∀ r (path' : Path V),
    (pathExtended r = true ↔ (length path < length path')%nat) →
    (r ∈ [EXTENDED_TO_DEAD_END; EXTENDED_TO_BRANCHING_POINT;
          EXTENDED_TO_CYCLE; EXTENDED_TO_LENGTH_LIMIT]
     ↔ (length path < length path')%nat) ∧
    (¬ (length path < length path')%nat →
     r ∈ [DEAD_END; BRANCHING_POINT; CYCLE; LENGTH_LIMIT]) ∧
    (pathExtended r = true ↔ (length path < length path')%nat)).
  { intros r path' Hiff. split; [|split; [|exact Hiff]].
    - rewrite <- pathExtended_true_codes. exact Hiff.
    - intros Hnot. apply pathExtended_false_codes.
      destruct (pathExtended r); [|reflexivity].
      exfalso. apply Hnot, Hiff. reflexivity. }
  split.
  - destruct (extendPath_spec path dir g visited trimLen maxLen Hne)
      as (r & path' & visited' & Hcall & _ & Hiff & _).
    exists r, path', visited'. split; [exact Hcall|]. apply Hcodes, Hiff.
  - destruct (extendPath_spec path dir g (list_to_set path) trimLen maxLen Hne)
      as (r & path' & visited' & Hcall & _ & Hiff & _).
    exists r, path'. unfold extendPath_seeded. rewrite Hcall.
    split; [reflexivity|]. apply Hcodes, Hiff.
Qed.

(** C7: when a non-empty path is on entry at least as long as [maxLen],
    [extendPath] returns LENGTH_LIMIT and leaves the path and the visited
    set as they were, in every graph.  This holds for every [maxLen], the
    finite ones in particular, and for the overload without [visited]. *)
Theorem extendPath_at_length_limit (path : Path V) (dir : Direction)
    (g : Graph V) (visited : gset V) (trimLen maxLen : N) :
  path ≠ [] →
  maxLen ≤ N.of_nat (length path) →
  extendPath V_default NO_LIMIT path dir g visited trimLen maxLen
  = Some (LENGTH_LIMIT, path, visited) ∧
  extendPath_seeded V_default NO_LIMIT path dir g trimLen maxLen
  = Some (LENGTH_LIMIT, path).
Proof.
  intros Hne Hmax.
  assert (Hcore : ∀ vis,
    extendPath V_default NO_LIMIT path dir g vis trimLen maxLen
    = Some (LENGTH_LIMIT, path, vis)).
  { intros vis. unfold extendPath, assert.
    assert (0 < length path)%nat by (destruct path; [done|simpl; lia]).
    destruct (decide (0 < length path)%nat); [|contradiction].
    apply N.leb_le in Hmax as Hleb. rewrite Hleb.
    destruct (bool_decide (N.of_nat (length path) ≠ NO_LIMIT));
      [reflexivity|]. simpl.
    rewrite extendPath_loop_step.
    assert (Hcond : loop_cond maxLen (loop_entry path vis) = false).
    { unfold loop_cond. simpl. apply N.ltb_ge. exact Hmax. }
    rewrite Hcond. simpl.
    destruct (decide (length path < length path)%nat); [lia|].
    destruct (decide (length path = length path)); [|contradiction].
    destruct (decide (maxLen ≤ N.of_nat (length path))); [|contradiction].
    reflexivity. }
  split; [apply Hcore|].
  unfold extendPath_seeded. rewrite Hcore. reflexivity.
Qed.

(** C8: [extendPath] on a non-empty path never shortens it: for both
    overloads, and any visited set for the core one, the call returns
    with a path at least as long as on entry, whatever the result code
    (the vertex taken back after a cycle had just been added). *)
Theorem extendPath_length_nondecreasing (path : Path V) (dir : Direction)
    (g : Graph V) (visited : gset V) (trimLen maxLen : N) :
  path ≠ [] →
  (∃ r path' visited',
     extendPath V_default NO_LIMIT path dir g visited trimLen maxLen
     = Some (r, path', visited') ∧
     (length path ≤ length path')%nat) ∧
  (∃ r path',
     extendPath_seeded V_default NO_LIMIT path dir g trimLen maxLen
     = Some (r, path') ∧
     (length path ≤ length path')%nat).
Proof.
  intros Hne. split.
  - destruct (extendPath_spec path dir g visited trimLen maxLen Hne)
      as (r & path' & visited' & Hcall & Hlen & _).
    eauto.
  - destruct (extendPath_spec path dir g (list_to_set path) trimLen maxLen Hne)
      as (r & path' & visited' & Hcall & Hlen & _).
    exists r, path'. unfold extendPath_seeded. rewrite Hcall. auto.
Qed.

(** C10: the core overload re-establishes its precondition.  Called on
    a non-empty path with a visited set that contains every vertex of
    the path, it returns with a non-empty path whose vertices are all in
    the returned visited set. *)
Theorem extendPath_visited_covers_path (path : Path V) (dir : Direction)
    (g : Graph V) (visited : gset V) (trimLen maxLen : N) :
  path ≠ [] →
  (∀ x, x ∈ path → x ∈ visited) →
  ∃ r path' visited',
    extendPath V_default NO_LIMIT path dir g visited trimLen maxLen
    = Some (r, path', visited') ∧
    path' ≠ [] ∧
    (∀ x, x ∈ path' → x ∈ visited').
Proof.
  intros Hne Hcov.
  destruct (extendPath_spec path dir g visited trimLen maxLen Hne)
    as (r & path' & visited' & Hcall & Hlen & _ & Hcov' & _).
  exists r, path', visited'. repeat split; auto.
  intros ->. destruct path; [done|simpl in Hlen; lia].
Qed.

(** C4, amended: when the non-empty path has no duplicate vertices on
    entry and the visited set contains every vertex of it, [extendPath]
    returns, and if the code is CYCLE or EXTENDED_TO_CYCLE the returned
    path has no duplicate vertices. *)
Theorem extendPath_cycle_no_duplicates (path : Path V) (dir : Direction)
    (g : Graph V) (visited : gset V) (trimLen maxLen : N) :
  path ≠ [] →
  NoDup path →
  (∀ x, x ∈ path → x ∈ visited) →
  ∃ r path' visited',
    extendPath V_default NO_LIMIT path dir g visited trimLen maxLen
    = Some (r, path', visited') ∧
    (r = CYCLE ∨ r = EXTENDED_TO_CYCLE → NoDup path').
Proof.
  intros Hne Hnd Hcov.
  destruct (extendPath_spec path dir g visited trimLen maxLen Hne)
    as (r & path' & visited' & Hcall & _ & _ & _ & Hnd').
  exists r, path', visited'. auto.
Qed.

End Properties.

(** * Concrete runs *)

Local Open Scope nat_scope.

(** C1: in [spur_graph] the vertex 0 has two raw out-edges and exactly
    one neighbour passes the probe at depth 1, the neighbour 1 of the
    first edge.  [getSuccessor] answers SE_EXTENDED and leaves the cell
    behind its non-null out-parameter at its old value 7 instead of 1;
    so does [getPredecessor] in the reversed graph, and
    [extendPathBySingleVertex] then appends the unassigned [vNext]
    (here 9) to the path. *)
Theorem getSuccessor_first_branch_not_stored :
  out_edges spur_graph 0 = [(0, 1); (0, 2)] ∧
  lookAhead 1 FORWARD 1 spur_graph = true ∧
  lookAhead 2 FORWARD 1 spur_graph = false ∧
  getSuccessor 0 spur_graph 1 (Some 7) = (SE_EXTENDED, Some 7) ∧
  getPredecessor 0 (reverse_graph spur_graph) 1 (Some 7)
  = (SE_EXTENDED, Some 7) ∧
  extendPathBySingleVertex 9 [0] FORWARD spur_graph 1
  = Some (SE_EXTENDED, [0; 9]).
Proof. repeat split; vm_compute; reflexivity. Qed.

Lemma getSingleVertexExtension_precedence_witness :
  getSingleVertexExtension 0 FORWARD merge_graph 0 9
  = (SE_BRANCHING_POINT, 9) ∧
  ∃ result candidate,
    classify_downstream 3 REVERSE merge_graph 0 9 = (result, Some candidate) ∧
    getSingleVertexExtension 3 REVERSE merge_graph 0 9 = (result, candidate).
Proof.
  split.
  - apply (proj1 (getSingleVertexExtension_precedence
                    0 FORWARD merge_graph 0%N 9)).
    + vm_compute. reflexivity.
    + intros u. reflexivity.
  - apply (proj2 (getSingleVertexExtension_precedence
                    3 REVERSE merge_graph 0%N 9)).
    vm_compute. discriminate.
Defined.

Lemma extendPath_extended_iff_grown_witness :
  (∃ r path' visited',
     extendPath 9 UINT_MAX [0] FORWARD chain_graph {[0]} 0 UINT_MAX
     = Some (r, path', visited') ∧
     (r ∈ [EXTENDED_TO_DEAD_END; EXTENDED_TO_BRANCHING_POINT;
           EXTENDED_TO_CYCLE; EXTENDED_TO_LENGTH_LIMIT]
      ↔ length [0] < length path') ∧
     (¬ length [0] < length path' →
      r ∈ [DEAD_END; BRANCHING_POINT; CYCLE; LENGTH_LIMIT]) ∧
     (pathExtended r = true ↔ length [0] < length path')) ∧
  (∃ r path',
     extendPath_seeded 9 UINT_MAX [0] FORWARD chain_graph 0 UINT_MAX
     = Some (r, path') ∧
     (r ∈ [EXTENDED_TO_DEAD_END; EXTENDED_TO_BRANCHING_POINT;
           EXTENDED_TO_CYCLE; EXTENDED_TO_LENGTH_LIMIT]
      ↔ length [0] < length path') ∧
     (¬ length [0] < length path' →
      r ∈ [DEAD_END; BRANCHING_POINT; CYCLE; LENGTH_LIMIT]) ∧
     (pathExtended r = true ↔ length [0] < length path')).
Proof.
  apply (extendPath_extended_iff_grown 9 UINT_MAX [0] FORWARD chain_graph
           {[0]} 0%N UINT_MAX).
  discriminate.
Defined.

(** C4 as stated fails: the path [0; 0] is not empty and the visited
    set {0} contains its vertices; in [loop_graph] the call returns
    CYCLE with the path as it was, which repeats the vertex 0. *)
Lemma extendPath_cycle_duplicates_counterexample :
  ¬ (∀ (path : Path nat) (dir : Direction) (g : Graph nat)
       (visited : gset nat) (trimLen maxLen : N)
       r path' visited',
       path ≠ [] →
       (∀ x, x ∈ path → x ∈ visited) →
       extendPath 9 UINT_MAX path dir g visited trimLen maxLen
       = Some (r, path', visited') →
       r = CYCLE ∨ r = EXTENDED_TO_CYCLE →
       NoDup path').
Proof.
  intros Hclaim.
  assert (Hnd : NoDup [0; 0]).
  { apply (Hclaim [0; 0] FORWARD loop_graph {[0]} 0%N 10%N
             CYCLE [0; 0] {[0]}).
    - discriminate.
    - intros x Hx. apply elem_of_singleton.
      apply elem_of_cons in Hx as [->|Hx]; [reflexivity|].
      apply list_elem_of_singleton in Hx. exact Hx.
    - vm_compute. reflexivity.
    - left. reflexivity. }
  apply NoDup_cons in Hnd as [Hnotin _].
  apply Hnotin, list_elem_of_singleton. reflexivity.
Qed.

Lemma extendPath_cycle_no_duplicates_witness :
  ∃ r path' visited',
    extendPath 9 UINT_MAX [0] FORWARD cycle_graph {[0]} 0 UINT_MAX
    = Some (r, path', visited') ∧
    (r = CYCLE ∨ r = EXTENDED_TO_CYCLE → NoDup path').
Proof.
  apply (extendPath_cycle_no_duplicates 9 UINT_MAX [0] FORWARD cycle_graph
           {[0]} 0%N UINT_MAX).
  - discriminate.
  - apply NoDup_singleton.
  - intros x Hx. apply list_elem_of_singleton in Hx.
    apply elem_of_singleton. exact Hx.
Defined.

Lemma lookAhead_monotone_witness :
  lookAhead 0 FORWARD 1 spur_graph = true.
Proof.
  apply (lookAhead_monotone 0 FORWARD spur_graph 2%N 1%N).
  - reflexivity.
  - vm_compute. discriminate.
  - vm_compute. reflexivity.
Defined.

Lemma single_edge_always_extended_witness :
  lookAhead 3 FORWARD 5 spur_graph = false ∧
  (getSuccessor 1 spur_graph 5 None = (SE_EXTENDED, None) ∧
   ∀ old, getSuccessor 1 spur_graph 5 (Some old) = (SE_EXTENDED, Some 3)) ∧
  (getPredecessor 1 spur_graph 5 None = (SE_EXTENDED, None) ∧
   ∀ old, getPredecessor 1 spur_graph 5 (Some old) = (SE_EXTENDED, Some 0)).
Proof.
  split; [vm_compute; reflexivity|]. split.
  - apply (proj1 (single_edge_always_extended 1 spur_graph 5%N) (1, 3)).
    reflexivity.
  - apply (proj2 (single_edge_always_extended 1 spur_graph 5%N) (0, 1)).
    reflexivity.
Defined.

Lemma extendPath_at_length_limit_witness :
  extendPath 9 UINT_MAX [0; 1] FORWARD chain_graph {[0; 1]} 0 2
  = Some (LENGTH_LIMIT, [0; 1], {[0; 1]}) ∧
  extendPath_seeded 9 UINT_MAX [0; 1] FORWARD chain_graph 0 2
  = Some (LENGTH_LIMIT, [0; 1]).
Proof.
  apply (extendPath_at_length_limit 9 UINT_MAX [0; 1] FORWARD chain_graph
           {[0; 1]} 0%N 2%N).
  - discriminate.
  - vm_compute. discriminate.
Defined.

Lemma extendPath_length_nondecreasing_witness :
  (∃ r path' visited',
     extendPath 9 UINT_MAX [0] FORWARD cycle_graph {[0]} 0 UINT_MAX
     = Some (r, path', visited') ∧
     length [0] ≤ length path') ∧
  (∃ r path',
     extendPath_seeded 9 UINT_MAX [0] FORWARD cycle_graph 0 UINT_MAX
     = Some (r, path') ∧
     length [0] ≤ length path').
Proof.
  apply (extendPath_length_nondecreasing 9 UINT_MAX [0] FORWARD cycle_graph
           {[0]} 0%N UINT_MAX).
  discriminate.
Defined.

Lemma extendPath_visited_covers_path_witness :
  ∃ r path' visited',
    extendPath 9 UINT_MAX [3] REVERSE chain_graph {[3]} 0 UINT_MAX
    = Some (r, path', visited') ∧
    path' ≠ [] ∧
    (∀ x, x ∈ path' → x ∈ visited').
Proof.
  apply (extendPath_visited_covers_path 9 UINT_MAX [3] REVERSE chain_graph
           {[3]} 0%N UINT_MAX).
  - discriminate.
  - intros x Hx. apply list_elem_of_singleton in Hx.
    apply elem_of_singleton. exact Hx.
Defined.

(** ** The scenarios of the specification *)

(** Unfolds one iteration of the loop of [extendPath] on a closed state. *)
Ltac extendPath_loop_iter :=
  rewrite extendPath_loop_step;
  match goal with
  | |- context [loop_cond ?m ?s] =>
    let b := eval vm_compute in (loop_cond m s) in
    change (loop_cond m s) with b; cbv iota
  end;
  try match goal with
  | |- context [loop_body ?d ?dir ?g ?t ?s] =>
    let r := eval vm_compute in (loop_body d dir g t s) in
    change (loop_body d dir g t s) with r; cbn [mbind option_bind]
  end.

Ltac extendPath_run :=
  unfold extendPath_seeded, extendPath;
  repeat extendPath_loop_iter;
  vm_compute; reflexivity.

(** Scenario A: the chain 0 → 1 → 2 → 3 from [0], forwards, without
    trimming or length limit. *)
Example scenario_linear_chain :
  extendPath_seeded 9 UINT_MAX [0] FORWARD chain_graph 0 UINT_MAX
  = Some (EXTENDED_TO_DEAD_END, [0; 1; 2; 3]).
Proof. extendPath_run. Qed.

(** Scenario B: two out-edges that both lead to branches longer than
    [trimLen]. *)
Example scenario_branching_point :
  getSuccessor 0 (graph_of_edges [(0, 1); (0, 2); (1, 3); (2, 4)]) 1 (Some 9)
  = (SE_BRANCHING_POINT, Some 9).
Proof. vm_compute. reflexivity. Qed.

(** Scenario C: the cycle 0 → 1 → 2 → 0 from [0]; the repeated 0 is
    taken back. *)
Example scenario_cycle :
  extendPath_seeded 9 UINT_MAX [0] FORWARD cycle_graph 0 UINT_MAX
  = Some (EXTENDED_TO_CYCLE, [0; 1; 2]).
Proof. extendPath_run. Qed.

(** Scenario D: a length limit of 2 on a chain. *)
Example scenario_length_limit :
  extendPath_seeded 9 UINT_MAX [0] FORWARD chain_graph 0 2
  = Some (EXTENDED_TO_LENGTH_LIMIT, [0; 1]).
Proof. vm_compute. reflexivity. Qed.

(** The reverse direction prepends. *)
Example scenario_reverse_chain :
  extendPath_seeded 9 UINT_MAX [3] REVERSE chain_graph 0 UINT_MAX
  = Some (EXTENDED_TO_DEAD_END, [0; 1; 2; 3]).
Proof. extendPath_run. Qed.

(** * Further properties *)

Local Open Scope N_scope.

Section FurtherProperties.

Context {V : Type} `{Countable V}.
Variable V_default : V.
Variable NO_LIMIT : N.

Implicit Types (u v w : V) (g : Graph V) (path : Path V) (visited : gset V).
Implicit Types (dir : Direction) (s : ExtendState V).

(** ** The reachability probe *)

Lemma lookAhead_edges_neighbours fuel u dir depth depthLimit visited g :
  lookAhead_visited (S fuel) u dir depth depthLimit visited g =
  if depth =? depthLimit then Some (true, {[u]} ∪ visited)
  else lookAhead_edges
         (λ v vis, lookAhead_visited fuel v dir (uint_incr depth)
                     depthLimit vis g)
         (neighbours dir g u) ({[u]} ∪ visited).
Proof. destruct dir; reflexivity. Qed.

(** The visited set only grows. *)
Lemma lookAhead_edges_grows probe ends visited b visited' :
  (∀ v vi b vo, probe v vi = Some (b, vo) → vi ⊆ vo) →
  lookAhead_edges probe ends visited = Some (b, visited') →
  visited ⊆ visited'.
Proof.
  intros Hprobe. revert visited.
  induction ends as [|v ends IH]; intros visited Hrun; simpl in Hrun.
  - injection Hrun as _ <-. reflexivity.
  - destruct (decide (v ∈ visited)); [apply IH, Hrun|].
    destruct (probe v visited) as [[[] vo]|] eqn:Hv; [| |discriminate Hrun].
    + injection Hrun as _ <-. eapply Hprobe, Hv.
    + etrans; [eapply Hprobe, Hv|apply IH, Hrun].
Qed.

Lemma lookAhead_visited_grows fuel u dir depth depthLimit visited g b visited' :
  lookAhead_visited fuel u dir depth depthLimit visited g = Some (b, visited') →
  {[u]} ∪ visited ⊆ visited'.
Proof.
  revert u depth visited b visited'.
  induction fuel as [|fuel IH]; intros u depth visited b visited' Hrun;
    [discriminate Hrun|].
  rewrite lookAhead_edges_neighbours in Hrun.
  destruct (depth =? depthLimit).
  - injection Hrun as _ <-. reflexivity.
  - eapply lookAhead_edges_grows; [|exact Hrun].
    intros v vi b' vo Hv. apply IH in Hv. set_solver.
Qed.

(** A successful neighbour loop has found a neighbour that was not yet
    visited and whose search succeeded. *)
Lemma lookAhead_edges_true probe ends visited visited' :
  (∀ v vi b vo, probe v vi = Some (b, vo) → vi ⊆ vo) →
  lookAhead_edges probe ends visited = Some (true, visited') →
  ∃ v vi vo,
    v ∈ ends ∧ (visited ⊆ vi) ∧ (v ∉ vi) ∧ probe v vi = Some (true, vo).
Proof.
  intros Hprobe. revert visited.
  induction ends as [|v ends IH]; intros visited Hrun; simpl in Hrun;
    [discriminate Hrun|].
  destruct (decide (v ∈ visited)) as [Hin|Hnin].
  - destruct (IH visited Hrun) as (v' & vi & vo & Hv' & Hsub & Hfresh & Hp).
    exists v', vi, vo. repeat split; auto. apply list_elem_of_further, Hv'.
  - destruct (probe v visited) as [[[] vo]|] eqn:Hv; [| |discriminate Hrun].
    + exists v, visited, vo. repeat split; auto. apply list_elem_of_here.
    + destruct (IH vo Hrun) as (v' & vi & vo' & Hv' & Hsub & Hfresh & Hp).
      exists v', vi, vo'. repeat split; auto.
      * apply list_elem_of_further, Hv'.
      * etrans; [eapply Hprobe, Hv|exact Hsub].
Qed.

Lemma lookAhead_visited_sound fuel u dir depth depthLimit visited g visited' :
  depth ≤ depthLimit → depthLimit < UINT_MODULUS →
  lookAhead_visited fuel u dir depth depthLimit visited g
  = Some (true, visited') →
  ∃ l, simple_path dir g u (N.to_nat (depthLimit - depth)) l ∧
       ∀ x, x ∈ tail l → x ∉ {[u]} ∪ visited.
Proof.
  revert u depth visited visited'.
  induction fuel as [|fuel IH]; intros u depth visited visited' Hle Hlim Hrun;
    [discriminate Hrun|].
  rewrite lookAhead_edges_neighbours in Hrun.
  destruct (N.eqb_spec depth depthLimit) as [->|Hne].
  - exists [u]. rewrite N.sub_diag. repeat split; simpl; auto.
    + apply NoDup_singleton.
    + intros x Hx. apply elem_of_nil in Hx. contradiction.
  - apply lookAhead_edges_true in Hrun
      as (v & vi & vo & Hv & Hsub & Hfresh & Hprobe).
    2:{ intros v vi b vo Hp. apply lookAhead_visited_grows in Hp. set_solver. }
    rewrite (uint_incr_below depth depthLimit) in Hprobe by lia.
    apply IH in Hprobe as (l & (Hhd & Hlen & Hwalk & Hnd) & Htl); [|lia..].
    destruct l as [|v' l]; [discriminate Hhd|].
    injection Hhd as ->. simpl in Htl.
    exists (u :: v :: l). repeat split.
    + simpl in *. lia.
    + exact Hv.
    + exact Hwalk.
    + apply NoDup_cons. split; [|exact Hnd].
      assert (Hu0 : u ∈ {[u]} ∪ visited)
        by (apply elem_of_union; left; apply elem_of_singleton; reflexivity).
      intros [->|Hu]%elem_of_cons.
      * apply Hfresh, Hsub, Hu0.
      * apply (Htl u Hu), elem_of_union. right. apply Hsub, Hu0.
    + simpl. intros x [->|Hx]%elem_of_cons.
      * intros Hin. apply Hfresh, Hsub, Hin.
      * intros Hin. apply (Htl x Hx), elem_of_union. right. apply Hsub, Hin.
Qed.

(** X1: the probe is sound.  When [lookAhead(start, dir, depth, g)]
    returns true for an unsigned [depth], the graph has a walk of [depth]
    edges from [start] in direction [dir] that repeats no vertex. *)
Theorem lookAhead_sound (start : V) (dir : Direction) (depth : N)
    (g : Graph V) :
  depth < UINT_MODULUS →
  lookAhead start dir depth g = true →
  ∃ l, simple_path dir g start (N.to_nat depth) l.
Proof.
  intros Hlim [vis Hrun]%lookAhead_true_run.
  apply lookAhead_visited_sound in Hrun as (l & Hl & _); [|lia..].
  rewrite N.sub_0_r in Hl. eauto.
Qed.

(** X2: the probe terminates.  For an unsigned [depth] the search
    returns within its [depth + 1] nested calls, [lookAhead] is the
    answer of that search, and the start vertex is among the visited. *)
Theorem lookAhead_terminates (start : V) (dir : Direction) (depth : N)
    (g : Graph V) :
  depth < UINT_MODULUS →
  ∃ b vis,
    lookAhead_run start dir depth g = Some (b, vis) ∧
    lookAhead start dir depth g = b ∧
    start ∈ vis.
Proof.
  intros Hlim.
  destruct (lookAhead_visited_fuel (S (N.to_nat depth)) start dir 0 depth ∅ g)
    as [[b vis] Hrun]; [lia..|].
  exists b, vis. unfold lookAhead, lookAhead_run. rewrite Hrun.
  repeat split.
  apply lookAhead_visited_grows in Hrun. apply Hrun, elem_of_union.
  left. apply elem_of_singleton. reflexivity.
Qed.

(** A neighbour loop whose recursive calls all succeed. *)
Lemma lookAhead_edges_leaf (mark : V → gset V → gset V) ends visited :
  (∃ w vis, lookAhead_edges (λ v vi, Some (true, mark v vi)) ends visited
            = Some (true, vis) ∧ w ∈ ends ∧ w ∉ visited) ∨
  (lookAhead_edges (λ v vi, Some (true, mark v vi)) ends visited
   = Some (false, visited) ∧ ∀ w, w ∈ ends → w ∈ visited).
Proof.
  induction ends as [|v ends IH]; simpl.
  - right. split; [reflexivity|]. intros w Hw%elem_of_nil. contradiction.
  - destruct (decide (v ∈ visited)) as [Hin|Hnin].
    + destruct IH as [(w & vis & Hrun & Hw & Hfresh)|[Hrun Hall]].
      * left. exists w, vis. repeat split; auto.
        apply list_elem_of_further, Hw.
      * right. split; [exact Hrun|].
        intros w [->|Hw]%elem_of_cons; auto.
    + left. exists v, (mark v visited). repeat split; auto.
      apply list_elem_of_here.
Qed.

(** X3: at depth limit 1 the probe is exact: [lookAhead(v, dir, 1, g)]
    returns true if and only if [v] has a neighbour in direction [dir]
    other than itself. *)
Theorem lookAhead_depth_one (v : V) (dir : Direction) (g : Graph V) :
  lookAhead v dir 1 g = true ↔ ∃ w, w ∈ neighbours dir g v ∧ w ≠ v.
Proof.
  unfold lookAhead, lookAhead_run.
  change (S (N.to_nat 1)) with 2%nat.
  rewrite lookAhead_edges_neighbours.
  change (0 =? 1) with false. cbv iota.
  destruct (lookAhead_edges_leaf (λ w vi, {[w]} ∪ vi)
              (neighbours dir g v) ({[v]} ∪ ∅))
    as [(w & vis & Hrun & Hw & Hfresh)|[Hrun Hall]].
  - change (lookAhead_edges _ (neighbours dir g v) ({[v]} ∪ ∅))
      with (lookAhead_edges (λ w vi, Some (true, {[w]} ∪ vi))
              (neighbours dir g v) ({[v]} ∪ ∅)).
    rewrite Hrun. split; [|reflexivity]. intros _. exists w. split; [exact Hw|].
    intros ->. apply Hfresh, elem_of_union. left.
    apply elem_of_singleton. reflexivity.
  - change (lookAhead_edges _ (neighbours dir g v) ({[v]} ∪ ∅))
      with (lookAhead_edges (λ w vi, Some (true, {[w]} ∪ vi))
              (neighbours dir g v) ({[v]} ∪ ∅)).
    rewrite Hrun. split; [discriminate|]. intros (w & Hw & Hne).
    apply Hall in Hw. apply elem_of_union in Hw as [Hw|Hw].
    + apply elem_of_singleton in Hw. contradiction.
    + apply elem_of_empty in Hw. contradiction.
Qed.

(** The neighbours of the transposed graph. *)
Lemma neighbours_transpose dir g u :
  neighbours dir (transpose g) u = neighbours (opposite dir) g u.
Proof.
  destruct dir; simpl; rewrite <- list_fmap_compose; reflexivity.
Qed.

Lemma lookAhead_visited_transpose fuel u dir depth depthLimit visited g :
  lookAhead_visited fuel u dir depth depthLimit visited (transpose g)
  = lookAhead_visited fuel u (opposite dir) depth depthLimit visited g.
Proof.
  revert u depth visited.
  induction fuel as [|fuel IH]; intros u depth visited; [reflexivity|].
  rewrite !lookAhead_edges_neighbours, neighbours_transpose.
  destruct (depth =? depthLimit); [reflexivity|].
  apply lookAhead_edges_ext. intros. apply IH.
Qed.

Lemma lookAhead_transpose_eq start dir depth g :
  lookAhead start dir depth (transpose g)
  = lookAhead start (opposite dir) depth g.
Proof.
  unfold lookAhead, lookAhead_run.
  rewrite lookAhead_visited_transpose. reflexivity.
Qed.

(** X4: the two directions of the probe are one search: probing in
    direction [dir] in the graph with all edges turned around gives the
    answer of probing in the opposite direction in the graph itself. *)
Theorem lookAhead_transpose (start : V) (dir : Direction) (depth : N)
    (g : Graph V) :
  lookAhead start dir depth (transpose g)
  = lookAhead start (opposite dir) depth g.
Proof. apply lookAhead_transpose_eq. Qed.

(** ** The enumeration of true branches *)

Lemma trueBranches_out_filter g trimLen edges branchRoots :
  trueBranches_out g trimLen edges branchRoots
  = branchRoots
    ++ filter (λ v, lookAhead v FORWARD trimLen g = true) (target <$> edges).
Proof.
  revert branchRoots.
  induction edges as [|e edges IH]; intros acc; simpl.
  - rewrite app_nil_r. reflexivity.
  - rewrite filter_cons.
    destruct (lookAhead (target e) FORWARD trimLen g) eqn:He.
    + rewrite IH, decide_True by reflexivity.
      rewrite <- app_assoc. reflexivity.
    + rewrite IH, decide_False by discriminate. reflexivity.
Qed.

Lemma trueBranches_in_filter g trimLen edges branchRoots :
  trueBranches_in g trimLen edges branchRoots
  = branchRoots
    ++ filter (λ v, lookAhead v REVERSE trimLen g = true) (source <$> edges).
Proof.
  revert branchRoots.
  induction edges as [|e edges IH]; intros acc; simpl.
  - rewrite app_nil_r. reflexivity.
  - rewrite filter_cons.
    destruct (lookAhead (source e) REVERSE trimLen g) eqn:He.
    + rewrite IH, decide_True by reflexivity.
      rewrite <- app_assoc. reflexivity.
    + rewrite IH, decide_False by discriminate. reflexivity.
Qed.

Lemma trueBranches_eq_filter u dir g trimLen :
  trueBranches u dir g trimLen
  = filter (λ v, lookAhead v dir trimLen g = true) (neighbours dir g u).
Proof.
  destruct dir; simpl.
  - apply trueBranches_out_filter.
  - apply trueBranches_in_filter.
Qed.

(** X5: [trueBranches] returns the neighbours of [u] in direction [dir]
    that pass the probe at depth [trimLen], in edge order and with their
    multiplicity: a vertex is returned if and only if it is a neighbour
    that passes. *)
Theorem trueBranches_spec (u : V) (dir : Direction) (g : Graph V)
    (trimLen : N) :
  trueBranches u dir g trimLen
  = filter (λ v, lookAhead v dir trimLen g = true) (neighbours dir g u) ∧
  trueBranches u dir g trimLen `sublist_of` neighbours dir g u ∧
  ∀ v, v ∈ trueBranches u dir g trimLen ↔
       v ∈ neighbours dir g u ∧ lookAhead v dir trimLen g = true.
Proof.
  rewrite trueBranches_eq_filter. split; [reflexivity|]. split.
  - apply sublist_filter.
  - intros v. rewrite list_elem_of_filter. tauto.
Qed.

(** X6: without trimming every neighbour is a true branch:
    [trueBranches(u, dir, g, 0)] is the list of all neighbours of [u] in
    direction [dir]. *)
Theorem trueBranches_no_trim (u : V) (dir : Direction) (g : Graph V) :
  trueBranches u dir g 0 = neighbours dir g u.
Proof.
  rewrite trueBranches_eq_filter.
  induction (neighbours dir g u) as [|v l IH]; [reflexivity|].
  rewrite filter_cons, decide_True by reflexivity. rewrite IH. reflexivity.
Qed.

(** The probe is monotone in its depth limit. *)
Lemma lookAhead_le v dir g (d d' : N) :
  d < UINT_MODULUS → d' ≤ d →
  lookAhead v dir d g = true → lookAhead v dir d' g = true.
Proof.
  intros Hlim Hle [vis Hrun]%lookAhead_true_run.
  apply lookAhead_true_run.
  destruct (lookAhead_visited_sim (S (N.to_nat d')) (S (N.to_nat d))
              v dir 0 d' d ∅ g)
    as (b' & vis' & b & vis0 & Hrun' & Hrun0 & Hcase); try lia.
  unfold lookAhead_run in *. rewrite Hrun in Hrun0.
  injection Hrun0 as <- <-.
  destruct Hcase as [-> | (_ & [=] & _)]. eauto.
Qed.

Lemma sublist_filter_impl {A : Type} (P Q : A → Prop)
    `{∀ x, Decision (P x)} `{∀ x, Decision (Q x)} (l : list A) :
  (∀ x, P x → Q x) → filter P l `sublist_of` filter Q l.
Proof.
  intros Himpl. induction l as [|x l IH]; [reflexivity|].
  rewrite !filter_cons. destruct (decide (P x)) as [HP|HP].
  - rewrite decide_True by auto. apply sublist_skip, IH.
  - destruct (decide (Q x)); [apply sublist_cons, IH|exact IH].
Qed.

(** X7: trimming harder keeps fewer branches: for unsigned
    [trimLen' ≤ trimLen], the true branches at [trimLen] are a sublist of
    the true branches at [trimLen']. *)
Theorem trueBranches_antitone (u : V) (dir : Direction) (g : Graph V)
    (trimLen trimLen' : N) :
  trimLen < UINT_MODULUS → trimLen' ≤ trimLen →
  trueBranches u dir g trimLen `sublist_of` trueBranches u dir g trimLen'.
Proof.
  intros Hlim Hle. rewrite !trueBranches_eq_filter.
  apply sublist_filter_impl. intros v. apply lookAhead_le; assumption.
Qed.

(** ** The branch classifier *)

Lemma uint_incr_small (x : N) : x < 2 → uint_incr x = x + 1.
Proof. intros Hx. apply (uint_incr_below x 2); [exact Hx|reflexivity]. Qed.

Lemma branch_verdict_many (n : N) : 2 ≤ n → branch_verdict n = SE_BRANCHING_POINT.
Proof.
  intros Hn. unfold branch_verdict.
  destruct (N.eqb_spec n 0); [lia|]. destruct (N.eqb_spec n 1); [lia|].
  reflexivity.
Qed.

(** The code that the loops return is decided by the number of
    neighbours that pass the probe. *)
Lemma getSuccessor_loop_count g trimLen edges count successor :
  count < 2 →
  (getSuccessor_loop g trimLen edges count successor).1
  = branch_verdict
      (count + N.of_nat (length (trueBranches_out g trimLen edges []))).
Proof.
  revert count successor.
  induction edges as [|e edges IH]; intros count successor Hc; simpl.
  - rewrite N.add_0_r. reflexivity.
  - rewrite !trueBranches_out_filter. simpl.
    destruct (lookAhead (target e) FORWARD trimLen g) eqn:He.
    + rewrite uint_incr_small by exact Hc.
      destruct (N.leb_spec 2 (count + 1)) as [Hge|Hlt]; simpl.
      * rewrite branch_verdict_many by lia. reflexivity.
      * rewrite IH by lia. rewrite trueBranches_out_filter. simpl.
        f_equal. lia.
    + rewrite IH by exact Hc. rewrite trueBranches_out_filter. reflexivity.
Qed.

Lemma getPredecessor_loop_count g trimLen edges count predecessor :
  count < 2 →
  (getPredecessor_loop g trimLen edges count predecessor).1
  = branch_verdict
      (count + N.of_nat (length (trueBranches_in g trimLen edges []))).
Proof.
  revert count predecessor.
  induction edges as [|e edges IH]; intros count predecessor Hc; simpl.
  - rewrite N.add_0_r. reflexivity.
  - rewrite !trueBranches_in_filter. simpl.
    destruct (lookAhead (source e) REVERSE trimLen g) eqn:He.
    + rewrite uint_incr_small by exact Hc.
      destruct (N.leb_spec 2 (count + 1)) as [Hge|Hlt]; simpl.
      * rewrite branch_verdict_many by lia. reflexivity.
      * rewrite IH by lia. rewrite trueBranches_in_filter. simpl.
        f_equal. lia.
    + rewrite IH by exact Hc. rewrite trueBranches_in_filter. reflexivity.
Qed.

(** X8: the code of [getSuccessor] and [getPredecessor] is decided by
    the edges alone, whatever the out-parameter: SE_DEAD_END without an
    edge, SE_EXTENDED with exactly one, and with two or more edges the
    verdict on the number of true branches that [trueBranches] lists
    (none: SE_DEAD_END, one: SE_EXTENDED, more: SE_BRANCHING_POINT). *)
Theorem classifier_code_by_count (v : V) (g : Graph V) (trimLen : N)
    (cell : option V) :
  (getSuccessor v g trimLen cell).1
  = match out_edges g v with
    | [] => SE_DEAD_END
    | [_] => SE_EXTENDED
    | _ => branch_verdict
             (N.of_nat (length (trueBranches v FORWARD g trimLen)))
    end ∧
  (getPredecessor v g trimLen cell).1
  = match in_edges g v with
    | [] => SE_DEAD_END
    | [_] => SE_EXTENDED
    | _ => branch_verdict
             (N.of_nat (length (trueBranches v REVERSE g trimLen)))
    end.
Proof.
  split.
  - unfold getSuccessor, trueBranches.
    destruct (out_edges g v) as [|e1 [|e2 edges]]; [reflexivity..|].
    rewrite trueBranches_out_filter. cbn [fmap list_fmap app].
    rewrite filter_cons.
    destruct (lookAhead (target e1) FORWARD trimLen g).
    + rewrite getSuccessor_loop_count by reflexivity.
      rewrite trueBranches_out_filter, decide_True by reflexivity.
      change (uint_incr 0) with 1. simpl. f_equal.
      rewrite Nat2N.inj_succ, N.add_1_l. reflexivity.
    + rewrite getSuccessor_loop_count by reflexivity.
      rewrite trueBranches_out_filter, decide_False by discriminate.
      reflexivity.
  - unfold getPredecessor, trueBranches.
    destruct (in_edges g v) as [|e1 [|e2 edges]]; [reflexivity..|].
    rewrite trueBranches_in_filter. cbn [fmap list_fmap app].
    rewrite filter_cons.
    destruct (lookAhead (source e1) REVERSE trimLen g).
    + rewrite getPredecessor_loop_count by reflexivity.
      rewrite trueBranches_in_filter, decide_True by reflexivity.
      change (uint_incr 0) with 1. simpl. f_equal.
      rewrite Nat2N.inj_succ, N.add_1_l. reflexivity.
    + rewrite getPredecessor_loop_count by reflexivity.
      rewrite trueBranches_in_filter, decide_False by discriminate.
      reflexivity.
Qed.

(** X9: without trimming the classifiers go by the raw degree: no edge
    is SE_DEAD_END, one edge is SE_EXTENDED with its neighbour stored
    through a non-null out-parameter, two or more edges are
    SE_BRANCHING_POINT with the out-parameter not written. *)
Theorem classifier_no_trim (v : V) (g : Graph V) (cell : option V) :
  getSuccessor v g 0 cell
  = match out_edges g v with
    | [] => (SE_DEAD_END, cell)
    | [e] => (SE_EXTENDED, store cell (target e))
    | _ => (SE_BRANCHING_POINT, cell)
    end ∧
  getPredecessor v g 0 cell
  = match in_edges g v with
    | [] => (SE_DEAD_END, cell)
    | [e] => (SE_EXTENDED, store cell (source e))
    | _ => (SE_BRANCHING_POINT, cell)
    end.
Proof.
  split.
  - unfold getSuccessor.
    destruct (out_edges g v) as [|e1 [|e2 edges]]; reflexivity.
  - unfold getPredecessor.
    destruct (in_edges g v) as [|e1 [|e2 edges]]; reflexivity.
Qed.

(** What the loops leave behind a non-null out-parameter: its old value,
    or a neighbour that passes the probe. *)
Lemma getSuccessor_loop_stores g trimLen edges count old :
  ∃ x, (getSuccessor_loop g trimLen edges count (Some old)).2 = Some x ∧
       (x = old ∨
        (x ∈ target <$> edges ∧ lookAhead x FORWARD trimLen g = true)).
Proof.
  revert count old.
  induction edges as [|e edges IH]; intros count old; simpl; [eauto|].
  destruct (lookAhead (target e) FORWARD trimLen g) eqn:He.
  - destruct (2 <=? uint_incr count); simpl; [eauto|].
    destruct (IH (uint_incr count) (target e)) as (x & Hcell & Hcase).
    exists x. split; [exact Hcell|]. right.
    destruct Hcase as [->|[Hx Hp]]; split; auto.
    + apply list_elem_of_here.
    + apply list_elem_of_further, Hx.
  - destruct (IH count old) as (x & Hcell & Hcase).
    exists x. split; [exact Hcell|].
    destruct Hcase as [->|[Hx Hp]]; auto.
    right. split; [apply list_elem_of_further, Hx|exact Hp].
Qed.

Lemma getPredecessor_loop_stores g trimLen edges count old :
  ∃ x, (getPredecessor_loop g trimLen edges count (Some old)).2 = Some x ∧
       (x = old ∨
        (x ∈ source <$> edges ∧ lookAhead x REVERSE trimLen g = true)).
Proof.
  revert count old.
  induction edges as [|e edges IH]; intros count old; simpl; [eauto|].
  destruct (lookAhead (source e) REVERSE trimLen g) eqn:He.
  - destruct (2 <=? uint_incr count); simpl; [eauto|].
    destruct (IH (uint_incr count) (source e)) as (x & Hcell & Hcase).
    exists x. split; [exact Hcell|]. right.
    destruct Hcase as [->|[Hx Hp]]; split; auto.
    + apply list_elem_of_here.
    + apply list_elem_of_further, Hx.
  - destruct (IH count old) as (x & Hcell & Hcase).
    exists x. split; [exact Hcell|].
    destruct Hcase as [->|[Hx Hp]]; auto.
    right. split; [apply list_elem_of_further, Hx|exact Hp].
Qed.

(** X10: what the classifiers write.  Behind a non-null out-parameter
    [getSuccessor] and [getPredecessor] leave either the old value or a
    neighbour of [v] that is its only neighbour or passes the probe at
    depth [trimLen]; they never store any other vertex. *)
Theorem classifier_stores_neighbour (v : V) (g : Graph V) (trimLen : N)
    (old : V) :
  (∃ x, (getSuccessor v g trimLen (Some old)).2 = Some x ∧
        (x = old ∨
         (x ∈ neighbours FORWARD g v ∧
          (length (out_edges g v) = 1%nat ∨
           lookAhead x FORWARD trimLen g = true)))) ∧
  (∃ x, (getPredecessor v g trimLen (Some old)).2 = Some x ∧
        (x = old ∨
         (x ∈ neighbours REVERSE g v ∧
          (length (in_edges g v) = 1%nat ∨
           lookAhead x REVERSE trimLen g = true)))).
Proof.
  split.
  - unfold getSuccessor, neighbours.
    destruct (out_edges g v) as [|e1 [|e2 edges]]; [simpl; eauto|..].
    + exists (target e1). split; [reflexivity|]. right.
      split; [apply list_elem_of_here|]. left. reflexivity.
    + destruct (getSuccessor_loop_stores g trimLen (e2 :: edges)
                  (if lookAhead (target e1) FORWARD trimLen g
                   then uint_incr 0 else 0) old)
        as (x & Hx & Hcase).
      exists x. split; [exact Hx|].
      destruct Hcase as [->|[Hin Hp]]; auto.
      right. split; [|right; exact Hp].
      rewrite fmap_cons. apply list_elem_of_further, Hin.
  - unfold getPredecessor, neighbours.
    destruct (in_edges g v) as [|e1 [|e2 edges]]; [simpl; eauto|..].
    + exists (source e1). split; [reflexivity|]. right.
      split; [apply list_elem_of_here|]. left. reflexivity.
    + destruct (getPredecessor_loop_stores g trimLen (e2 :: edges)
                  (if lookAhead (source e1) REVERSE trimLen g
                   then uint_incr 0 else 0) old)
        as (x & Hx & Hcase).
      exists x. split; [exact Hx|].
      destruct Hcase as [->|[Hin Hp]]; auto.
      right. split; [|right; exact Hp].
      rewrite fmap_cons. apply list_elem_of_further, Hin.
Qed.

(** The classifiers of the transposed graph. *)
Lemma getSuccessor_loop_transpose g trimLen edges count cell :
  getSuccessor_loop (transpose g) trimLen
    ((λ e, (target e, source e)) <$> edges) count cell
  = getPredecessor_loop g trimLen edges count cell.
Proof.
  revert count cell.
  induction edges as [|e edges IH]; intros count cell; simpl; [reflexivity|].
  rewrite (lookAhead_transpose_eq _ FORWARD). simpl.
  destruct (lookAhead (source e) REVERSE trimLen g); [|apply IH].
  destruct (2 <=? uint_incr count); [reflexivity|apply IH].
Qed.

Lemma getPredecessor_loop_transpose g trimLen edges count cell :
  getPredecessor_loop (transpose g) trimLen
    ((λ e, (target e, source e)) <$> edges) count cell
  = getSuccessor_loop g trimLen edges count cell.
Proof.
  revert count cell.
  induction edges as [|e edges IH]; intros count cell; simpl; [reflexivity|].
  rewrite (lookAhead_transpose_eq _ REVERSE). simpl.
  destruct (lookAhead (target e) FORWARD trimLen g); [|apply IH].
  destruct (2 <=? uint_incr count); [reflexivity|apply IH].
Qed.

Lemma getSuccessor_transpose v g trimLen cell :
  getSuccessor v (transpose g) trimLen cell = getPredecessor v g trimLen cell.
Proof.
  unfold getSuccessor, getPredecessor.
  change (out_edges (transpose g) v)
    with ((λ e, (target e, source e)) <$> in_edges g v).
  destruct (in_edges g v) as [|e1 [|e2 edges]]; [reflexivity..|].
  rewrite !fmap_cons. cbv beta iota zeta.
  rewrite (lookAhead_transpose_eq _ FORWARD).
  exact (getSuccessor_loop_transpose g trimLen (e2 :: edges) _ cell).
Qed.

Lemma getPredecessor_transpose v g trimLen cell :
  getPredecessor v (transpose g) trimLen cell = getSuccessor v g trimLen cell.
Proof.
  unfold getSuccessor, getPredecessor.
  change (in_edges (transpose g) v)
    with ((λ e, (target e, source e)) <$> out_edges g v).
  destruct (out_edges g v) as [|e1 [|e2 edges]]; [reflexivity..|].
  rewrite !fmap_cons. cbv beta iota zeta.
  rewrite (lookAhead_transpose_eq _ REVERSE).
  exact (getPredecessor_loop_transpose g trimLen (e2 :: edges) _ cell).
Qed.

Lemma getSingleVertexExtension_transpose v dir g trimLen vNext :
  getSingleVertexExtension v dir (transpose g) trimLen vNext
  = getSingleVertexExtension v (opposite dir) g trimLen vNext.
Proof.
  unfold getSingleVertexExtension.
  destruct dir; simpl;
    rewrite !getSuccessor_transpose, !getPredecessor_transpose; reflexivity.
Qed.

(** X11: the two classifiers are one algorithm: [getSuccessor] in the
    graph with all edges turned around is [getPredecessor] in the graph
    itself, and conversely, with the same code and the same value behind
    the out-parameter; so [getSingleVertexExtension] in direction [dir]
    in the turned graph is the one in the opposite direction. *)
Theorem classifier_transpose (v : V) (dir : Direction) (g : Graph V)
    (trimLen : N) (cell : option V) (vNext : V) :
  getSuccessor v (transpose g) trimLen cell = getPredecessor v g trimLen cell ∧
  getPredecessor v (transpose g) trimLen cell = getSuccessor v g trimLen cell ∧
  getSingleVertexExtension v dir (transpose g) trimLen vNext
  = getSingleVertexExtension v (opposite dir) g trimLen vNext.
Proof.
  split; [apply getSuccessor_transpose|].
  split; [apply getPredecessor_transpose|].
  apply getSingleVertexExtension_transpose.
Qed.

(** ** The path extender *)

Lemma attach_nil dir path : attach dir path [] = path.
Proof. destruct dir; simpl; [apply app_nil_r|reflexivity]. Qed.

Lemma push_attach dir path added w :
  push dir (attach dir path added) w = attach dir path (push dir added w).
Proof.
  destruct dir; simpl; unfold push_back, push_front;
    [rewrite app_assoc|]; reflexivity.
Qed.

Lemma length_attach dir path added :
  length (attach dir path added) = (length path + length added)%nat.
Proof. destruct dir; simpl; rewrite length_app; lia. Qed.

Lemma list_to_set_push dir (added : Path V) w :
  list_to_set (push dir added w) =@{gset V} {[w]} ∪ list_to_set added.
Proof.
  destruct dir; simpl; unfold push_back, push_front.
  - rewrite list_to_set_app_L. simpl. rewrite union_empty_r_L.
    apply union_comm_L.
  - reflexivity.
Qed.

(** One iteration, given the classification of the frontier. *)
Lemma loop_body_at dir g trimLen s v r w :
  frontier dir (es_path s) = Some v →
  getSingleVertexExtension v dir g trimLen V_default = (r, w) →
  loop_body V_default dir g trimLen s
  = Some (if decide (r = SE_EXTENDED)
          then {| es_path := push dir (es_path s) w;
                  es_visited := {[w]} ∪ es_visited s;
                  es_result := SE_EXTENDED;
                  es_detectedCycle :=
                    if bool_decide (w ∉ es_visited s)
                    then es_detectedCycle s else true |}
          else {| es_path := es_path s; es_visited := es_visited s;
                  es_result := r;
                  es_detectedCycle := es_detectedCycle s |}).
Proof.
  intros Hv Hext. unfold loop_body, extendPathBySingleVertex.
  rewrite Hv. simpl. rewrite Hext.
  destruct (decide (r = SE_EXTENDED)) as [->|Hr].
  - replace (match dir with
             | FORWARD => Some (SE_EXTENDED, push_back (es_path s) w)
             | REVERSE => Some (SE_EXTENDED, push_front (es_path s) w)
             end) with (Some (SE_EXTENDED, push dir (es_path s) w))
      by (destruct dir; reflexivity).
    simpl. rewrite frontier_push. reflexivity.
  - simpl. destruct (decide (r = SE_EXTENDED)); [contradiction|reflexivity].
Qed.

Lemma run_inv_entry path visited dir g trimLen maxLen :
  run_inv V_default path visited dir g trimLen maxLen
    (loop_entry path visited).
Proof.
  split. exists []. unfold final_path. simpl.
  rewrite attach_nil, union_empty_l_L.
  repeat split; try done.
  - apply NoDup_nil_2.
  - intros x Hx%elem_of_nil. contradiction.
Qed.

Lemma run_inv_step path0 visited0 dir g trimLen maxLen s s' :
  es_path s ≠ [] →
  run_inv V_default path0 visited0 dir g trimLen maxLen s →
  loop_cond maxLen s = true →
  loop_body V_default dir g trimLen s = Some s' →
  run_inv V_default path0 visited0 dir g trimLen maxLen s'.
Proof.
  intros Hne [(added & Hnd & Hfresh & Hvis & Hpath & _ & _)]
    (Hres & Hcyc & Hlt)%loop_cond_true Hbody.
  unfold final_path in Hpath. rewrite Hcyc in Hpath.
  destruct (frontier_is_Some dir (es_path s) Hne) as [v Hv].
  destruct (getSingleVertexExtension v dir g trimLen V_default) as [r w] eqn:Hx.
  rewrite (loop_body_at dir g trimLen s v r w Hv Hx) in Hbody.
  injection Hbody as <-. split.
  destruct (decide (r = SE_EXTENDED)) as [->|Hr]; unfold final_path; simpl.
  - case_bool_decide as Hw; rewrite ?Hcyc.
    + exists (push dir added w). repeat split; try done.
      * apply NoDup_push; [|exact Hnd]. intros Hin. apply Hw.
        rewrite Hvis. apply elem_of_union. left.
        apply elem_of_list_to_set, Hin.
      * intros x [->|Hin]%elem_of_push; [|apply Hfresh, Hin].
        intros Hin. apply Hw. rewrite Hvis. apply elem_of_union. right.
        exact Hin.
      * rewrite Hvis, list_to_set_push, (assoc_L (∪)). reflexivity.
      * rewrite Hpath. apply push_attach.
    + exists added. rewrite pop_push.
      assert (Hin : w ∈ es_visited s).
      { destruct (decide (w ∈ es_visited s)); [assumption|contradiction]. }
      repeat split; try done.
      * rewrite <- Hvis. apply subseteq_union_1_L.
        apply singleton_subseteq_l, Hin.
      * exists v, w. repeat split; auto.
        apply elem_of_union. right. exact Hin.
  - rewrite Hcyc. exists added. repeat split; try done.
    intros _ _. exists v, w. auto.
Qed.

(** The loop started on a non-empty path returns in a state that
    satisfies both invariants and falsifies the loop condition. *)
Lemma extendPath_loop_trace path visited dir g trimLen maxLen :
  path ≠ [] →
  ∃ s, extendPath_loop V_default dir g trimLen maxLen (loop_entry path visited)
       = Some s ∧
       loop_inv path visited dir maxLen s ∧
       run_inv V_default path visited dir g trimLen maxLen s ∧
       loop_cond maxLen s = false.
Proof.
  intros Hne.
  destruct (extendPath_loop_invariant V_default
              (λ s, loop_inv path visited dir maxLen s ∧
                    run_inv V_default path visited dir g trimLen maxLen s)
              dir g trimLen maxLen) with (s := loop_entry path visited)
    as (s & Hloop & [Hinv Hrun] & Hcond).
  - intros s [Hinv Hrun] Hcond.
    destruct (loop_inv_step V_default path visited dir g trimLen maxLen s
                Hinv Hcond) as (s' & Hbody & Hinv').
    exists s'. split; [exact Hbody|]. split; [exact Hinv'|].
    eapply run_inv_step; eauto. apply Hinv.
  - split; [apply loop_inv_entry, Hne|apply run_inv_entry].
  - eauto.
Qed.

(** What [extendPath] returns, from the final state of its loop. *)
Lemma extendPath_outcome path dir g visited trimLen maxLen s :
  path ≠ [] →
  extendPath_loop V_default dir g trimLen maxLen (loop_entry path visited)
  = Some s →
  loop_inv path visited dir maxLen s →
  loop_cond maxLen s = false →
  extendPath V_default NO_LIMIT path dir g visited trimLen maxLen
  = Some (result_code
            (bool_decide (length path < length (final_path dir s))%nat) s,
          final_path dir s, es_visited s).
Proof.
  intros Hne Hloop [Hne' Hlen Hlim _ _] Hcond. unfold extendPath, assert.
  assert (0 < length path)%nat by (destruct path; [done|simpl; lia]).
  destruct (decide (0 < length path)%nat); [|contradiction].
  destruct (bool_decide (N.of_nat (length path) ≠ NO_LIMIT)
            && (maxLen <=? N.of_nat (length path))) eqn:Htest.
  { apply andb_prop in Htest as [_ Hmax%N.leb_le].
    rewrite extendPath_loop_step in Hloop.
    assert (Hentry : loop_cond maxLen (loop_entry path visited) = false).
    { unfold loop_cond. simpl. apply N.ltb_ge. exact Hmax. }
    rewrite Hentry in Hloop. injection Hloop as <-.
    unfold final_path, result_code. simpl.
    rewrite bool_decide_false by lia. reflexivity. }
  rewrite Hloop. simpl. fold (pop dir (es_path s)).
  change (if es_detectedCycle s then pop dir (es_path s) else es_path s)
    with (final_path dir s).
  assert (Hpath' : (es_detectedCycle s = false ∧ final_path dir s = es_path s) ∨
                   (es_detectedCycle s = true ∧
                    ∃ w, es_path s = push dir (final_path dir s) w)).
  { unfold final_path. destruct (es_detectedCycle s); [right|left]; split; auto.
    apply push_pop, Hne'. }
  assert (Hlen' : (length path ≤ length (final_path dir s))%nat).
  { destruct Hpath' as [[Hc ->]|[Hc [w Hw]]]; rewrite Hc in Hlen; [lia|].
    rewrite Hw, length_push in Hlen. lia. }
  assert (Hexit : es_detectedCycle s = false → es_result s = SE_EXTENDED →
                  maxLen ≤ N.of_nat (length (final_path dir s))).
  { intros Hc Hr. destruct Hpath' as [[_ ->]|[Hc' _]]; [|congruence].
    destruct (N.le_gt_cases maxLen (N.of_nat (length (es_path s))))
      as [|Hlt]; [assumption|].
    assert (loop_cond maxLen s = true) by (apply loop_cond_true; auto).
    congruence. }
  assert (Hgrown : es_detectedCycle s = false →
                   (length path < length (final_path dir s))%nat →
                   N.of_nat (length (final_path dir s)) ≤ maxLen).
  { intros Hc Hlt. destruct Hpath' as [[_ Heq]|[Hc' _]]; [|congruence].
    rewrite Heq in *. destruct Hlim as [Hp|]; [|assumption].
    rewrite Hp in Hlt. lia. }
  unfold result_code.
  generalize dependent (final_path dir s). intros path' _ Hlen' Hexit Hgrown.
  destruct (decide (length path < length path')%nat) as [Hlt|Hnlt];
    [rewrite bool_decide_true by assumption
    |rewrite bool_decide_false by assumption;
     destruct (decide (length path' = length path)); [|lia]];
    (destruct (es_detectedCycle s); [reflexivity|]);
    (destruct (es_result s) eqn:Hr; simpl; try reflexivity);
    specialize (Hexit eq_refl eq_refl);
    try specialize (Hgrown eq_refl Hlt);
    (destruct (decide _) as [?|Hfail]; [reflexivity|]);
    exfalso; apply Hfail; first [split; [reflexivity|lia]|lia].
Qed.

(** X12: what [extendPath] adds.  Called on a non-empty path, the core
    overload returns the entry path with some vertices [added] at the end
    it extends (the back for FORWARD, the front for REVERSE); the added
    vertices are distinct, none of them was in the visited set on entry,
    and the visited set on return is the one on entry plus exactly the
    added vertices. *)
Theorem extendPath_adds_fresh (path : Path V) (dir : Direction)
    (g : Graph V) (visited : gset V) (trimLen maxLen : N) :
  path ≠ [] →
  ∃ r added,
    extendPath V_default NO_LIMIT path dir g visited trimLen maxLen
    = Some (r, attach dir path added, list_to_set added ∪ visited) ∧
    NoDup added ∧
    (∀ x, x ∈ added → x ∉ visited).
Proof.
  intros Hne.
  destruct (extendPath_loop_trace path visited dir g trimLen maxLen Hne)
    as (s & Hloop & Hinv & [(added & Hnd & Hfresh & Hvis & Hpath & _)] & Hcond).
  rewrite (extendPath_outcome path dir g visited trimLen maxLen s
             Hne Hloop Hinv Hcond).
  rewrite Hvis, Hpath. eauto.
Qed.

Lemma NoDup_attach dir (path added : Path V) :
  NoDup path → NoDup added → (∀ x, x ∈ added → x ∉ path) →
  NoDup (attach dir path added).
Proof.
  intros Hp Ha Hdisj. destruct dir; simpl; apply NoDup_app; repeat split; auto.
  intros x Hx Hx'. exact (Hdisj x Hx' Hx).
Qed.

(** X13: the overload without [visited] keeps a path free of duplicates:
    called on a non-empty path without duplicate vertices it returns a
    path without duplicate vertices, whatever the result code. *)
Theorem extendPath_seeded_no_duplicates (path : Path V) (dir : Direction)
    (g : Graph V) (trimLen maxLen : N) :
  path ≠ [] →
  NoDup path →
  ∃ r path',
    extendPath_seeded V_default NO_LIMIT path dir g trimLen maxLen
    = Some (r, path') ∧
    NoDup path'.
Proof.
  intros Hne Hnd.
  destruct (extendPath_loop_trace path (list_to_set path) dir g trimLen maxLen
              Hne)
    as (s & Hloop & Hinv & [(added & Hnd' & Hfresh & Hvis & Hpath & _)] & Hcond).
  unfold extendPath_seeded.
  rewrite (extendPath_outcome path dir g (list_to_set path) trimLen maxLen s
             Hne Hloop Hinv Hcond).
  simpl. eexists _, _. split; [reflexivity|]. rewrite Hpath.
  apply NoDup_attach; auto.
  intros x Hx Hin. apply (Hfresh x Hx), elem_of_list_to_set, Hin.
Qed.

(** X14: the length limit.  On a non-empty path [extendPath] returns
    LENGTH_LIMIT exactly when the path is at least [maxLen] long on
    entry; a path that is shorter than [maxLen] on entry is at most
    [maxLen] long on return, and exactly [maxLen] long when the code is
    EXTENDED_TO_LENGTH_LIMIT. *)
Theorem extendPath_length_limit (path : Path V) (dir : Direction)
    (g : Graph V) (visited : gset V) (trimLen maxLen : N) :
  path ≠ [] →
  ∃ r path' visited',
    extendPath V_default NO_LIMIT path dir g visited trimLen maxLen
    = Some (r, path', visited') ∧
    (r = LENGTH_LIMIT ↔ maxLen ≤ N.of_nat (length path)) ∧
    (N.of_nat (length path) < maxLen → N.of_nat (length path') ≤ maxLen) ∧
    (r = EXTENDED_TO_LENGTH_LIMIT → N.of_nat (length path') = maxLen).
Proof.
  intros Hne.
  destruct (extendPath_loop_trace path visited dir g trimLen maxLen Hne)
    as (s & Hloop & Hinv & [(added & _ & _ & _ & _ & Hcyc & Hstop)] & Hcond).
  rewrite (extendPath_outcome path dir g visited trimLen maxLen s
             Hne Hloop Hinv Hcond).
  eexists _, _, _. split; [reflexivity|].
  destruct Hinv as [_ Hlen Hlim _ _].
  assert (Hexit : es_detectedCycle s = false → es_result s = SE_EXTENDED →
                  maxLen ≤ N.of_nat (length (es_path s))).
  { intros Hc Hr.
    destruct (N.le_gt_cases maxLen (N.of_nat (length (es_path s))))
      as [|Hlt]; [assumption|].
    assert (loop_cond maxLen s = true) by (apply loop_cond_true; auto).
    congruence. }
  assert (Hsame : es_path s = path →
                  N.of_nat (length (es_path s)) = N.of_nat (length path))
    by (intros ->; reflexivity).
  unfold result_code, final_path in *.
  destruct (es_detectedCycle s) eqn:Hc.
  - destruct (Hcyc eq_refl) as (_ & v & w & _ & _ & _ & Hpush & Hlt).
    rewrite Hpush, length_push in Hlen.
    case_bool_decide; repeat split; intros;
      first [discriminate|lia].
  - specialize (Hexit eq_refl). specialize (Hstop eq_refl).
    destruct (es_result s) eqn:Hr.
    1,2: destruct Hstop as (v & w & _ & _ & Hlt); [discriminate|];
         case_bool_decide; repeat split; intros; first [discriminate|lia].
    specialize (Hexit eq_refl). clear Hstop Hcyc.
    case_bool_decide as Hgrown; repeat split; intros;
      first [reflexivity|discriminate|lia
            |destruct Hlim as [Hp%Hsame|?]; lia].
Qed.

Lemma is_walk_snoc dir g (l : list V) v w :
  is_walk dir g l → last l = Some v → w ∈ neighbours dir g v →
  is_walk dir g (l ++ [w]).
Proof.
  intros Hwalk Hlast Hw. induction l as [|a l IH]; [discriminate Hlast|].
  destruct l as [|b l].
  - injection Hlast as ->. simpl. auto.
  - destruct Hwalk as [Hab Hwalk]. split; [exact Hab|].
    apply IH; assumption.
Qed.

Lemma oriented_push dir path w :
  oriented dir (push dir path w) = oriented dir path ++ [w].
Proof. destruct dir; simpl; [reflexivity|apply reverse_cons]. Qed.

Lemma frontier_oriented dir path : frontier dir path = last (oriented dir path).
Proof. destruct dir; simpl; [reflexivity|symmetry; apply last_reverse]. Qed.

(** Without trimming, a candidate is a neighbour of the frontier. *)
Lemma getSingleVertexExtension_no_trim v dir g vNext w :
  getSingleVertexExtension v dir g 0 vNext = (SE_EXTENDED, w) →
  w ∈ neighbours dir g v.
Proof.
  unfold getSingleVertexExtension. intros Hext.
  destruct (decide _); [discriminate Hext|].
  destruct dir; simpl.
  - unfold getSuccessor in Hext.
    destruct (out_edges g v) as [|e1 [|e2 edges]]; simpl in Hext;
      try discriminate Hext.
    injection Hext as <-. apply list_elem_of_here.
  - unfold getPredecessor in Hext.
    destruct (in_edges g v) as [|e1 [|e2 edges]]; simpl in Hext;
      try discriminate Hext.
    injection Hext as <-. apply list_elem_of_here.
Qed.

(** X15: without trimming, [extendPath] follows the edges of the graph.
    If the non-empty entry path, read in the direction of extension, is a
    walk (each vertex a neighbour in that direction of the one before),
    then so is the returned path. *)
Theorem extendPath_no_trim_walk (path : Path V) (dir : Direction)
    (g : Graph V) (visited : gset V) (maxLen : N) :
  path ≠ [] →
  is_walk dir g (oriented dir path) →
  ∃ r path' visited',
    extendPath V_default NO_LIMIT path dir g visited 0 maxLen
    = Some (r, path', visited') ∧
    is_walk dir g (oriented dir path').
Proof.
  intros Hne Hwalk.
  destruct (extendPath_loop_invariant V_default
              (λ s, loop_inv path visited dir maxLen s ∧
                    is_walk dir g (oriented dir (final_path dir s)))
              dir g 0 maxLen) with (s := loop_entry path visited)
    as (s & Hloop & [Hinv Hfinal] & Hcond).
  - intros s [Hinv Hw] (Hres & Hcyc & Hlt)%loop_cond_true.
    assert (Hcond : loop_cond maxLen s = true) by (apply loop_cond_true; auto).
    destruct (loop_inv_step V_default path visited dir g 0 maxLen s
                Hinv Hcond) as (s' & Hbody & Hinv').
    exists s'. split; [exact Hbody|]. split; [exact Hinv'|].
    unfold final_path in Hw. rewrite Hcyc in Hw.
    destruct (frontier_is_Some dir (es_path s) (inv_nonempty _ _ _ _ _ Hinv))
      as [v Hv].
    destruct (getSingleVertexExtension v dir g 0 V_default) as [r w] eqn:Hx.
    rewrite (loop_body_at dir g 0 s v r w Hv Hx) in Hbody.
    injection Hbody as <-. unfold final_path.
    destruct (decide (r = SE_EXTENDED)) as [->|Hr]; simpl.
    + case_bool_decide; rewrite ?Hcyc.
      * rewrite oriented_push. eapply is_walk_snoc; [exact Hw| |].
        -- rewrite <- frontier_oriented. exact Hv.
        -- eapply getSingleVertexExtension_no_trim, Hx.
      * rewrite pop_push. exact Hw.
    + rewrite Hcyc. exact Hw.
  - split; [apply loop_inv_entry, Hne|exact Hwalk].
  - rewrite (extendPath_outcome path dir g visited 0 maxLen s
               Hne Hloop Hinv Hcond).
    eauto.
Qed.

(** X16: the code tells why the extension stopped.  At the frontier [v]
    of the returned path: for (EXTENDED_TO_)DEAD_END or BRANCHING_POINT,
    [getSingleVertexExtension] classifies [v] as such; for
    (EXTENDED_TO_)CYCLE it finds a candidate that is already in the
    returned visited set; for (EXTENDED_TO_)LENGTH_LIMIT the returned
    path is at least [maxLen] long. *)
Theorem extendPath_code_justified (path : Path V) (dir : Direction)
    (g : Graph V) (visited : gset V) (trimLen maxLen : N) :
  path ≠ [] →
  ∃ r path' visited' v,
    extendPath V_default NO_LIMIT path dir g visited trimLen maxLen
    = Some (r, path', visited') ∧
    frontier dir path' = Some v ∧
    match stop_reason r with
    | DEAD_END =>
      (getSingleVertexExtension v dir g trimLen V_default).1 = SE_DEAD_END
    | BRANCHING_POINT =>
      (getSingleVertexExtension v dir g trimLen V_default).1
      = SE_BRANCHING_POINT
    | CYCLE =>
      ∃ w, getSingleVertexExtension v dir g trimLen V_default
           = (SE_EXTENDED, w) ∧ w ∈ visited'
    | _ => maxLen ≤ N.of_nat (length path')
    end.
Proof.
  intros Hne.
  destruct (extendPath_loop_trace path visited dir g trimLen maxLen Hne)
    as (s & Hloop & Hinv & [(added & _ & _ & _ & _ & Hcyc & Hstop)] & Hcond).
  rewrite (extendPath_outcome path dir g visited trimLen maxLen s
             Hne Hloop Hinv Hcond).
  unfold result_code.
  destruct (es_detectedCycle s) eqn:Hc.
  - destruct (Hcyc eq_refl) as (_ & v & w & Hv & Hx & Hw & _).
    eexists _, _, _, v. split; [reflexivity|]. split; [exact Hv|].
    case_bool_decide; simpl; eauto.
  - assert (Hfinal : final_path dir s = es_path s)
      by (unfold final_path; rewrite Hc; reflexivity).
    rewrite Hfinal. specialize (Hstop eq_refl).
    destruct (es_result s) eqn:Hr.
    1,2: destruct Hstop as (v & w & Hv & Hx & _); [discriminate|];
         eexists _, _, _, v; (split; [reflexivity|]); (split; [exact Hv|]);
         case_bool_decide; simpl; rewrite Hx; reflexivity.
    destruct (frontier_is_Some dir (es_path s) (inv_nonempty _ _ _ _ _ Hinv))
      as [v Hv].
    eexists _, _, _, v. split; [reflexivity|]. split; [exact Hv|].
    assert (maxLen ≤ N.of_nat (length (es_path s))).
    { destruct (N.le_gt_cases maxLen (N.of_nat (length (es_path s))))
        as [|Hlt]; [assumption|].
      assert (loop_cond maxLen s = true) by (apply loop_cond_true; auto).
      congruence. }
    case_bool_decide; simpl; assumption.
Qed.

Lemma stop_reason_result_code (grown : bool) s :
  stop_reason (result_code grown s) = result_code false s.
Proof.
  unfold result_code.
  destruct (es_detectedCycle s), (es_result s), grown; reflexivity.
Qed.

(** The loop on a path whose frontier stops the extension at once. *)
Lemma extendPath_loop_stop_at dir g trimLen maxLen path visited v r w :
  frontier dir path = Some v →
  getSingleVertexExtension v dir g trimLen V_default = (r, w) →
  N.of_nat (length path) < maxLen →
  r ≠ SE_EXTENDED ∨ w ∈ visited →
  extendPath_loop V_default dir g trimLen maxLen (loop_entry path visited)
  = Some (if decide (r = SE_EXTENDED)
          then {| es_path := push dir path w;
                  es_visited := {[w]} ∪ visited;
                  es_result := SE_EXTENDED; es_detectedCycle := true |}
          else {| es_path := path; es_visited := visited;
                  es_result := r; es_detectedCycle := false |}).
Proof.
  intros Hv Hx Hlt Hstop.
  rewrite extendPath_loop_step.
  assert (Hentry : loop_cond maxLen (loop_entry path visited) = true)
    by (apply loop_cond_true; auto).
  rewrite Hentry.
  rewrite (loop_body_at dir g trimLen (loop_entry path visited) v r w Hv Hx).
  simpl. rewrite extendPath_loop_step.
  destruct (decide (r = SE_EXTENDED)) as [->|Hr]; simpl.
  - destruct Hstop as [?|Hw]; [contradiction|].
    rewrite bool_decide_false by auto. reflexivity.
  - unfold loop_cond. simpl. rewrite bool_decide_false by exact Hr.
    reflexivity.
Qed.

(** X17: a second call changes nothing.  When [extendPath] has returned
    a path and a visited set, calling it on them again, with the same
    direction, graph and limits, returns the same path and visited set
    and the code of the reason without EXTENDED_TO. *)
Theorem extendPath_stable (path : Path V) (dir : Direction)
    (g : Graph V) (visited : gset V) (trimLen maxLen : N) :
  path ≠ [] →
  ∃ r path' visited',
    extendPath V_default NO_LIMIT path dir g visited trimLen maxLen
    = Some (r, path', visited') ∧
    extendPath V_default NO_LIMIT path' dir g visited' trimLen maxLen
    = Some (stop_reason r, path', visited').
Proof.
  intros Hne.
  destruct (extendPath_loop_trace path visited dir g trimLen maxLen Hne)
    as (s & Hloop & Hinv & [(added & _ & _ & _ & _ & Hcyc & Hstop)] & Hcond).
  rewrite (extendPath_outcome path dir g visited trimLen maxLen s
             Hne Hloop Hinv Hcond).
  eexists _, _, _. split; [reflexivity|].
  assert (Hne1 : final_path dir s ≠ []).
  { unfold final_path. destruct (es_detectedCycle s) eqn:Hc.
    - destruct (Hcyc eq_refl) as (_ & v & w & Hv & _).
      unfold final_path in Hv. rewrite Hc in Hv.
      intros Hnil. rewrite Hnil in Hv. destruct dir; discriminate Hv.
    - apply Hinv. }
  destruct (extendPath_loop_spec V_default (final_path dir s) (es_visited s)
              dir g trimLen maxLen Hne1)
    as (s2 & Hloop2 & Hinv2 & Hcond2).
  rewrite (extendPath_outcome _ dir g _ trimLen maxLen s2
             Hne1 Hloop2 Hinv2 Hcond2).
  rewrite stop_reason_result_code.
  assert (Hs2 : final_path dir s2 = final_path dir s ∧
                es_visited s2 = es_visited s ∧
                es_detectedCycle s2 = es_detectedCycle s ∧
                es_result s2 = es_result s).
  { destruct (es_detectedCycle s) eqn:Hc.
    - destruct (Hcyc eq_refl) as (Hr & v & w & Hv & Hx & Hw & _ & Hlt).
      rewrite (extendPath_loop_stop_at dir g trimLen maxLen _ _ v _ w
                 Hv Hx Hlt (or_intror Hw)) in Hloop2.
      simpl in Hloop2. injection Hloop2 as <-.
      unfold final_path at 1. simpl. rewrite pop_push.
      repeat split; auto.
      apply subseteq_union_1_L, singleton_subseteq_l, Hw.
    - assert (Hfinal : final_path dir s = es_path s)
        by (unfold final_path; rewrite Hc; reflexivity).
      rewrite Hfinal in *. specialize (Hstop eq_refl).
      destruct (decide (es_result s = SE_EXTENDED)) as [Hr|Hr].
      + assert (Hmax : maxLen ≤ N.of_nat (length (es_path s))).
        { destruct (N.le_gt_cases maxLen (N.of_nat (length (es_path s))))
            as [|Hlt]; [assumption|].
          assert (loop_cond maxLen s = true) by (apply loop_cond_true; auto).
          congruence. }
        rewrite extendPath_loop_step in Hloop2.
        assert (Hentry :
          loop_cond maxLen (loop_entry (es_path s) (es_visited s)) = false).
        { unfold loop_cond. simpl. apply N.ltb_ge. exact Hmax. }
        rewrite Hentry in Hloop2. injection Hloop2 as <-.
        unfold final_path. simpl. auto.
      + destruct (Hstop Hr) as (v & w & Hv & Hx & Hlt).
        rewrite (extendPath_loop_stop_at dir g trimLen maxLen _ _ v _ w
                   Hv Hx Hlt (or_introl Hr)) in Hloop2.
        destruct (decide (es_result s = SE_EXTENDED)); [contradiction|].
        injection Hloop2 as <-. unfold final_path. simpl. auto. }
  destruct Hs2 as (Hf & Hv & Hc2 & Hr2).
  rewrite Hf, Hv, bool_decide_false by lia.
  unfold result_code. rewrite Hc2, Hr2. reflexivity.
Qed.

(** ** Extension in the two directions *)

Lemma opposite_involutive dir : opposite (opposite dir) = dir.
Proof. destruct dir; reflexivity. Qed.

Lemma frontier_reverse dir path :
  frontier (opposite dir) (reverse path) = frontier dir path.
Proof. destruct dir; simpl; [apply head_reverse|apply last_reverse]. Qed.

Lemma push_reverse dir path w :
  push (opposite dir) (reverse path) w = reverse (push dir path w).
Proof.
  destruct dir; simpl; unfold push_back, push_front.
  - rewrite reverse_snoc. reflexivity.
  - rewrite reverse_cons. reflexivity.
Qed.

Lemma pop_reverse dir path :
  pop (opposite dir) (reverse path) = reverse (pop dir path).
Proof.
  destruct (decide (path = [])) as [->|Hne]; [destruct dir; reflexivity|].
  destruct (push_pop dir path Hne) as [w Hw].
  rewrite Hw at 1. rewrite <- push_reverse. apply pop_push.
Qed.

Lemma loop_cond_reverse maxLen s :
  loop_cond maxLen (reverse_state s) = loop_cond maxLen s.
Proof. unfold loop_cond. simpl. rewrite length_reverse. reflexivity. Qed.

Lemma loop_body_reverse dir g trimLen s :
  loop_body V_default (opposite dir) (transpose g) trimLen (reverse_state s)
  = reverse_state <$> loop_body V_default dir g trimLen s.
Proof.
  destruct (frontier dir (es_path s)) as [v|] eqn:Hv.
  - destruct (getSingleVertexExtension v dir g trimLen V_default)
      as [r w] eqn:Hx.
    rewrite (loop_body_at dir g trimLen s v r w Hv Hx).
    rewrite (loop_body_at (opposite dir) (transpose g) trimLen
               (reverse_state s) v r w).
    + simpl. rewrite push_reverse.
      destruct (decide (r = SE_EXTENDED)); reflexivity.
    + simpl. rewrite frontier_reverse. exact Hv.
    + rewrite getSingleVertexExtension_transpose, opposite_involutive.
      exact Hx.
  - unfold loop_body, extendPathBySingleVertex. simpl.
    rewrite frontier_reverse, Hv. reflexivity.
Qed.

Lemma extendPath_loop_reverse dir g trimLen maxLen s :
  extendPath_loop V_default (opposite dir) (transpose g) trimLen maxLen
    (reverse_state s)
  = reverse_state <$> extendPath_loop V_default dir g trimLen maxLen s.
Proof.
  funelim (extendPath_loop V_default dir g trimLen maxLen s);
    rewrite extendPath_loop_step, loop_cond_reverse, loop_body_reverse;
    match goal with Hc : loop_cond _ _ = _ |- _ => rewrite Hc end;
    try match goal with Hb : loop_body _ _ _ _ _ = _ |- _ => rewrite Hb end;
    simpl; auto.
Qed.

(** X18: extension backwards is extension forwards in the graph with
    all edges turned around.  [extendPath] on the reversed path, in the
    opposite direction and the turned graph, returns the same code and
    visited set, and the reversed path (and fails on an empty path as
    well). *)
Theorem extendPath_reverse (path : Path V) (dir : Direction)
    (g : Graph V) (visited : gset V) (trimLen maxLen : N) :
  extendPath V_default NO_LIMIT (reverse path) (opposite dir) (transpose g)
    visited trimLen maxLen
  = reverse_outcome
      <$> extendPath V_default NO_LIMIT path dir g visited trimLen maxLen.
Proof.
  destruct (decide (path = [])) as [->|Hne]; [reflexivity|].
  assert (Hne' : reverse path ≠ []).
  { intros Hnil. apply Hne. rewrite <- (reverse_involutive path), Hnil.
    reflexivity. }
  destruct (extendPath_loop_spec V_default path visited dir g trimLen maxLen
              Hne) as (s & Hloop & Hinv & Hcond).
  destruct (extendPath_loop_spec V_default (reverse path) visited
              (opposite dir) (transpose g) trimLen maxLen Hne')
    as (s' & Hloop' & Hinv' & Hcond').
  rewrite (extendPath_outcome path dir g visited trimLen maxLen s
             Hne Hloop Hinv Hcond).
  rewrite (extendPath_outcome _ _ _ visited trimLen maxLen s'
             Hne' Hloop' Hinv' Hcond').
  change (loop_entry (reverse path) visited)
    with (reverse_state (loop_entry path visited)) in Hloop'.
  rewrite extendPath_loop_reverse, Hloop in Hloop'.
  injection Hloop' as <-. simpl.
  assert (Hfinal : final_path (opposite dir) (reverse_state s)
                   = reverse (final_path dir s)).
  { unfold final_path. simpl. destruct (es_detectedCycle s); [|reflexivity].
    apply pop_reverse. }
  rewrite Hfinal, !length_reverse. reflexivity.
Qed.

(** ** Result codes as strings *)

(** X19: the names of the result codes.  [pathExtensionResultStr] gives
    different codes different names; the names of the codes for which
    [pathExtended] holds are those that start with EXTENDED_TO_, and
    what follows the prefix is the name of the code's reason. *)
Theorem pathExtensionResultStr_spec (r r' : PathExtensionResult) :
  (pathExtensionResultStr r = pathExtensionResultStr r' → r = r') ∧
  (pathExtended r = true ↔
   String.prefix "EXTENDED_TO_" (pathExtensionResultStr r) = true) ∧
  (pathExtended r = true →
   pathExtensionResultStr r
   = String.append "EXTENDED_TO_" (pathExtensionResultStr (stop_reason r))).
Proof.
  split; [|split].
  - destruct r, r'; simpl; intros Heq; first [reflexivity|discriminate Heq].
  - destruct r; simpl; split; intros Hr;
      first [reflexivity|discriminate Hr].
  - destruct r; simpl; intros Hr; first [reflexivity|discriminate Hr].
Qed.

(** ** Empty and non-empty paths *)

(** X20: a single step and its roll-back.  On a non-empty path
    [extendPathBySingleVertex] returns; with SE_EXTENDED the path is one
    vertex longer and removing the vertex at the extended end gives the
    entry path back, which is what [extendPath] does after a cycle; with
    another result the path is as it was.  On the empty path the
    frontier lookup has no value. *)
Theorem extendPathBySingleVertex_spec (path : Path V) (dir : Direction)
    (g : Graph V) (trimLen : N) :
  (path = [] → extendPathBySingleVertex V_default path dir g trimLen = None) ∧
  (path ≠ [] →
   ∃ r path',
     extendPathBySingleVertex V_default path dir g trimLen = Some (r, path') ∧
     (r = SE_EXTENDED →
      length path' = S (length path) ∧ pop dir path' = path) ∧
     (r ≠ SE_EXTENDED → path' = path)).
Proof.
  split.
  - intros ->. destruct dir; reflexivity.
  - intros Hne. destruct (frontier_is_Some dir path Hne) as [v Hv].
    destruct (getSingleVertexExtension v dir g trimLen V_default)
      as [r w] eqn:Hx.
    exists r, (if decide (r = SE_EXTENDED) then push dir path w else path).
    split.
    + unfold extendPathBySingleVertex. rewrite Hv. simpl. rewrite Hx.
      destruct (decide (r = SE_EXTENDED)); destruct dir; reflexivity.
    + destruct (decide (r = SE_EXTENDED)) as [Hr|Hr]; split;
        intros Hr'; try contradiction; try reflexivity.
      split; [apply length_push|apply pop_push].
Qed.

(** X21: [extendPath] fails on the empty path and on no other: the
    first assertion rejects an empty path, and on a non-empty path none
    of the four assertions fails and every frontier lookup has a value,
    for both overloads. *)
Theorem extendPath_fails_iff_empty (path : Path V) (dir : Direction)
    (g : Graph V) (visited : gset V) (trimLen maxLen : N) :
  (extendPath V_default NO_LIMIT path dir g visited trimLen maxLen = None
   ↔ path = []) ∧
  (extendPath_seeded V_default NO_LIMIT path dir g trimLen maxLen = None
   ↔ path = []).
Proof.
  assert (Hcore : ∀ vis,
    extendPath V_default NO_LIMIT path dir g vis trimLen maxLen = None
    ↔ path = []).
  { intros vis. split.
    - intros Hnone. destruct (decide (path = [])) as [|Hne]; [assumption|].
      destruct (extendPath_spec V_default NO_LIMIT path dir g vis trimLen
                  maxLen Hne) as (r & path' & vis' & Hcall & _).
      rewrite Hcall in Hnone. discriminate Hnone.
    - intros ->. reflexivity. }
  split; [apply Hcore|].
  unfold extendPath_seeded. rewrite <- (Hcore (list_to_set path)).
  destruct (extendPath V_default NO_LIMIT path dir g (list_to_set path)
              trimLen maxLen) as [[[r p] vis]|]; simpl; split;
    intros; first [reflexivity|discriminate].
Qed.

End FurtherProperties.

(** * Further concrete runs *)

Local Open Scope nat_scope.

(** X22: the probe is not complete.  In [detour_graph] the walk
    0, 1, 2, 3 has three edges and repeats no vertex, and
    [lookAhead(0, FORWARD, 3, g)] returns false: the search reaches 2
    over the direct edge first, marks it and 3 visited, and does not
    enter 2 again from 1. *)
Theorem lookAhead_incomplete :
  ¬ (∀ (g : Graph nat) (v : nat) (d : nat) (l : list nat),
       simple_path FORWARD g v d l →
       lookAhead v FORWARD (N.of_nat d) g = true).
Proof.
  intros Hcomplete.
  assert (Hpath : simple_path FORWARD detour_graph 0 3 [0; 1; 2; 3]).
  { repeat split; try (apply (bool_decide_unpack _); vm_compute; exact I). }
  apply Hcomplete in Hpath. vm_compute in Hpath. discriminate Hpath.
Qed.

Lemma lookAhead_sound_witness :
  ∃ l, simple_path FORWARD spur_graph 0 (N.to_nat 2) l.
Proof.
  apply (lookAhead_sound 0 FORWARD 2%N spur_graph).
  - reflexivity.
  - vm_compute. reflexivity.
Defined.

Lemma lookAhead_terminates_witness :
  ∃ b vis,
    lookAhead_run 0 FORWARD 3 detour_graph = Some (b, vis) ∧
    lookAhead 0 FORWARD 3 detour_graph = b ∧
    0 ∈ vis.
Proof.
  apply (lookAhead_terminates 0 FORWARD 3%N detour_graph). reflexivity.
Defined.

Lemma trueBranches_antitone_witness :
  trueBranches 0 FORWARD spur_graph 1
  `sublist_of` trueBranches 0 FORWARD spur_graph 0.
Proof.
  apply (trueBranches_antitone 0 FORWARD spur_graph 1%N 0%N).
  - reflexivity.
  - vm_compute. discriminate.
Defined.

Lemma extendPath_adds_fresh_witness :
  ∃ r added,
    extendPath 9 UINT_MAX [0] FORWARD cycle_graph {[0]} 0 UINT_MAX
    = Some (r, attach FORWARD [0] added, list_to_set added ∪ {[0]}) ∧
    NoDup added ∧
    (∀ x, x ∈ added → x ∉ ({[0]} : gset nat)).
Proof.
  apply (extendPath_adds_fresh 9 UINT_MAX [0] FORWARD cycle_graph {[0]}
           0%N UINT_MAX).
  discriminate.
Defined.

Lemma extendPath_seeded_no_duplicates_witness :
  ∃ r path',
    extendPath_seeded 9 UINT_MAX [0] FORWARD cycle_graph 0 UINT_MAX
    = Some (r, path') ∧
    NoDup path'.
Proof.
  apply (extendPath_seeded_no_duplicates 9 UINT_MAX [0] FORWARD cycle_graph
           0%N UINT_MAX).
  - discriminate.
  - apply NoDup_singleton.
Defined.

Lemma extendPath_length_limit_witness :
  ∃ r path' visited',
    extendPath 9 UINT_MAX [0] FORWARD chain_graph {[0]} 0 2
    = Some (r, path', visited') ∧
    (r = LENGTH_LIMIT ↔ (2 ≤ N.of_nat (length [0]))%N) ∧
    ((N.of_nat (length [0]) < 2)%N → (N.of_nat (length path') ≤ 2)%N) ∧
    (r = EXTENDED_TO_LENGTH_LIMIT → N.of_nat (length path') = 2%N).
Proof.
  apply (extendPath_length_limit 9 UINT_MAX [0] FORWARD chain_graph {[0]}
           0%N 2%N).
  discriminate.
Defined.

Lemma extendPath_no_trim_walk_witness :
  ∃ r path' visited',
    extendPath 9 UINT_MAX [2; 3] REVERSE chain_graph {[2; 3]} 0 UINT_MAX
    = Some (r, path', visited') ∧
    is_walk REVERSE chain_graph (oriented REVERSE path').
Proof.
  apply (extendPath_no_trim_walk 9 UINT_MAX [2; 3] REVERSE chain_graph
           {[2; 3]} UINT_MAX).
  - discriminate.
  - simpl. split; [|exact I].
    apply (bool_decide_unpack _). vm_compute. exact I.
Defined.

Lemma extendPath_code_justified_witness :
  ∃ r path' visited' v,
    extendPath 9 UINT_MAX [0] FORWARD cycle_graph {[0]} 0 UINT_MAX
    = Some (r, path', visited') ∧
    frontier FORWARD path' = Some v ∧
    match stop_reason r with
    | DEAD_END =>
      (getSingleVertexExtension v FORWARD cycle_graph 0 9).1 = SE_DEAD_END
    | BRANCHING_POINT =>
      (getSingleVertexExtension v FORWARD cycle_graph 0 9).1
      = SE_BRANCHING_POINT
    | CYCLE =>
      ∃ w, getSingleVertexExtension v FORWARD cycle_graph 0 9
           = (SE_EXTENDED, w) ∧ w ∈ visited'
    | _ => (UINT_MAX ≤ N.of_nat (length path'))%N
    end.
Proof.
  apply (extendPath_code_justified 9 UINT_MAX [0] FORWARD cycle_graph {[0]}
           0%N UINT_MAX).
  discriminate.
Defined.

Lemma extendPath_stable_witness :
  ∃ r path' visited',
    extendPath 9 UINT_MAX [0] FORWARD cycle_graph {[0]} 0 UINT_MAX
    = Some (r, path', visited') ∧
    extendPath 9 UINT_MAX path' FORWARD cycle_graph visited' 0 UINT_MAX
    = Some (stop_reason r, path', visited').
Proof.
  apply (extendPath_stable 9 UINT_MAX [0] FORWARD cycle_graph {[0]}
           0%N UINT_MAX).
  discriminate.
Defined.

Lemma extendPathBySingleVertex_spec_witness :
  extendPathBySingleVertex 9 [] FORWARD chain_graph 0 = None ∧
  ∃ r path',
    extendPathBySingleVertex 9 [0] FORWARD chain_graph 0 = Some (r, path') ∧
    (r = SE_EXTENDED →
     length path' = S (length [0]) ∧ pop FORWARD path' = [0]) ∧
    (r ≠ SE_EXTENDED → path' = [0]).
Proof.
  split.
  - apply (proj1 (extendPathBySingleVertex_spec 9 [] FORWARD chain_graph 0%N)).
    reflexivity.
  - apply (proj2 (extendPathBySingleVertex_spec 9 [0] FORWARD chain_graph 0%N)).
    discriminate.
Defined.
